(** * The MercadoLibre offer watcher: a shallow embedding and its properties

    The program polls a marketplace search API for a fixed list of search
    terms, keeps the offers it has seen in one SQLite table, and sends the
    newly appeared offers over a messaging transport.  This file embeds
    [fetch_offers], the store operations, [send_notification] and [job] of
    [mercadolibre-scraping-whatsapp-msg.py] and proves the properties the
    specification states about them.

    Conventions of the embedding:
    - a JSON offer is a record with the four fields the program reads;
    - a Python [dict] is an association list in insertion order (the order
      is observable: it is the order of the notification text);
    - the SQLite table is the list of its rows; the primary key is an
      invariant ([pk_unique]) that every operation preserves;
    - a Python [set] of ids is a [gset string];
    - the outside world (search endpoint, transport, clock) is an [env]
      of oracles, the clock being read anew at every INSERT; what the
      program does to the outside is recorded in a
      [world]: the table, the HTTP requests issued, the bodies handed to
      the transport. *)

From Stdlib Require Import ZArith Ascii.
From stdpp Require Import base tactics list strings gmap pretty.

Local Open Scope Z_scope.
Local Open Scope nat_scope.

Set Warnings "-clear-no-such-hyp".

(** ** Strings *)

Module Str.

(** Python's [len] on [str]. *)
Definition len (s : string) : nat := String.length s.

Definition newline : string := String "010"%char EmptyString.

(** Truthiness of a string: [if s:]. *)
Definition truthy (s : string) : bool :=
  match s with EmptyString => false | String _ _ => true end.

(** Python's [needle in haystack] on strings. *)
Fixpoint contains (needle haystack : string) : bool :=
  String.prefix needle haystack
  || match haystack with
     | EmptyString => false
     | String _ rest => contains needle rest
     end.

(** [c * n]: the character repeated. *)
Definition repeat (c : ascii) (n : nat) : string :=
  Nat.iter n (String c) EmptyString.

End Str.

(** ** Offers as the search endpoint returns them *)

(** A JSON number.  The program never computes with a price: it prints it
    and stores it.  An integer is carried as such; a float is carried by the
    text Python prints for it. *)
Inductive number : Type :=
  | Int (z : Z)
  | Float (repr : string).

Definition str_number (n : number) : string :=
  match n with
  | Int z => pretty z
  | Float repr => repr
  end.

(** One element of the [results] array: [item.get("id")], [item.get("title")],
    [item.get("price")], [item.get("permalink")].  The search endpoint
    returns objects that carry these four fields, the id and the other
    texts as strings, so that nothing inside [for item in results] raises. *)
Record item : Type := Item {
  item_id : string;
  title : string;
  price : number;
  permalink : string
}.

Global Instance number_eq_dec : EqDecision number.
Proof. solve_decision. Defined.

Global Instance item_eq_dec : EqDecision item.
Proof. solve_decision. Defined.

(** What one page request yields inside the [try] block: either
    [requests.get] or [response.json()] raises, or [data.get("results", [])]
    is a list of offers. *)
Inductive page : Type :=
  | PageError
  | PageResults (results : list item).

(** ** Python dictionaries, in insertion order *)

Module Dict.

Definition t (V : Type) : Type := list (string * V).

Definition empty {V} : t V := [].

(** [k in d] *)
Fixpoint contains {V} (k : string) (d : t V) : bool :=
  match d with
  | [] => false
  | (k', _) :: d' => if decide (k' = k) then true else contains k d'
  end.

(** [d.get(k)] *)
Fixpoint get {V} (k : string) (d : t V) : option V :=
  match d with
  | [] => None
  | (k', v) :: d' => if decide (k' = k) then Some v else get k d'
  end.

(** [d[k] = v]: an existing key keeps its position and takes the new
    value, a new key goes last. *)
Fixpoint store {V} (k : string) (v : V) (d : t V) : t V :=
  match d with
  | [] => [(k, v)]
  | (k', v') :: d' =>
      if decide (k' = k) then (k, v) :: d' else (k', v') :: store k v d'
  end.

Definition keys {V} (d : t V) : list string := fst <$> d.

(** [list(d.values())] *)
Definition values {V} (d : t V) : list V := snd <$> d.

End Dict.

(** ** The store, the environment and the world *)

(** A row of the table [offers]: [id], [title], [price], [permalink] and
    the [timestamp] column filled by [DEFAULT CURRENT_TIMESTAMP]. *)
Record row : Type := Row {
  r_id : string;
  r_title : string;
  r_price : number;
  r_permalink : string;
  r_timestamp : Z
}.

Global Instance row_eq_dec : EqDecision row.
Proof. solve_decision. Defined.

(** What [twilio_client.messages.create] does with a body: it returns a
    message with a [sid], or raises an exception whose text is kept. *)
Inductive send_result : Type :=
  | Sent (sid : string)
  | Failed (error_message : string).

(** The collaborators the program calls. *)
Record env : Type := Env {
  (** the parsed answer of the search endpoint for a term and an offset *)
  http_get : string → Z → page;
  (** the transport's answer to a message body *)
  twilio : string → send_result;
  (** SQLite's [CURRENT_TIMESTAMP] as the INSERT of the given offer reads
      it: every INSERT runs in a connection of its own and evaluates the
      default of the [timestamp] column itself, so that the rows of one
      run need not carry the same timestamp *)
  current_timestamp : item → Z
}.

Record world : Type := World {
  (** the table [offers] of [offers.db] *)
  offers_table : list row;
  (** the search requests issued so far, oldest first: term and offset *)
  requests : list (string * Z);
  (** the bodies handed to the transport so far, oldest first *)
  outbox : list string
}.

Definition set_table (f : list row → list row) (w : world) : world :=
  {| offers_table := f (offers_table w);
     requests := requests w;
     outbox := outbox w |}.

Definition log_request (query : string) (offset : Z) (w : world) : world :=
  {| offers_table := offers_table w;
     requests := requests w ++ [(query, offset)];
     outbox := outbox w |}.

Definition log_body (body : string) (w : world) : world :=
  {| offers_table := offers_table w;
     requests := requests w;
     outbox := outbox w ++ [body] |}.

(** The primary key of the table. *)
Definition pk_unique (table : list row) : Prop := NoDup (r_id <$> table).

(** ** A state monad over the world *)

Definition M (A : Type) : Type := world → A * world.

Definition ret {A} (a : A) : M A := λ w, (a, w).

Definition bind {A B} (m : M A) (k : A → M B) : M B :=
  λ w, let (a, w') := m w in k a w'.

Notation "x <- m ;; k" := (bind m (λ x, k))
  (at level 100, m at next level, right associativity).
Notation "m ;; k" := (bind m (λ _, k))
  (at level 100, right associativity).

(** [for x in l: body(x)] *)
Fixpoint for_each {A} (l : list A) (body : A → M unit) : M unit :=
  match l with
  | [] => ret tt
  | x :: l' => body x ;; for_each l' body
  end.

(** ** Search Client: [fetch_offers] *)

(** [range(start, stop, step)] for a positive [step]. *)
Definition range (start stop step : Z) : list Z :=
  (λ k : nat, (start + step * Z.of_nat k)%Z)
    <$> seq 0 (Z.to_nat ((stop - start + step - 1) `div` step)).

(** [requests.get(url)] followed by [response.json()] and
    [data.get("results", [])]. *)
Definition requests_get (E : env) (query : string) (offset : Z) : M page :=
  λ w, (http_get E query offset, log_request query offset w).

(** The body of [for item in results]. *)
Definition add_unseen (all_offers : Dict.t item) (it : item) : Dict.t item :=
  if Dict.contains (item_id it) all_offers then all_offers
  else Dict.store (item_id it) it all_offers.

(** The loop [for offset in ...] of [fetch_offers]; every [break] returns
    the dictionary as it stands. *)
Fixpoint fetch_pages (E : env) (query : string) (offsets : list Z)
    (all_offers : Dict.t item) : M (Dict.t item) :=
  match offsets with
  | [] => ret all_offers
  | offset :: later =>
      response <- requests_get E query offset ;;
      match response with
      | PageError => ret all_offers
      | PageResults [] => ret all_offers
      | PageResults results =>
          let all_offers := fold_left add_unseen results all_offers in
          if length results <? 50 then ret all_offers
          else fetch_pages E query later all_offers
      end
  end.

Definition fetch_offers (E : env) (query : string) : M (list item) :=
  all_offers <- fetch_pages E query (range 0 1001 50) Dict.empty ;;
  ret (Dict.values all_offers).

(** ** Offer Store *)

(** [SELECT id FROM offers] collected into a set. *)
Definition get_existing_offer_ids : M (gset string) :=
  λ w, (list_to_set (r_id <$> offers_table w), w).

(** [INSERT OR IGNORE INTO offers (id, title, price, permalink)]: a row whose
    id is already in the table is left alone, otherwise the new row goes in
    with the current timestamp. *)
Definition insert_or_ignore (now : Z) (it : item) (table : list row)
    : list row :=
  if decide (item_id it ∈ r_id <$> table) then table
  else table ++ [Row (item_id it) (title it) (price it) (permalink it) now].

Definition add_offer_to_db (E : env) (it : item) : M unit :=
  λ w, (tt, set_table (insert_or_ignore (current_timestamp E it) it) w).

(** [DELETE FROM offers WHERE id = ?] *)
Definition delete_where_id (offer_id : string) (table : list row) : list row :=
  filter (λ r, r_id r ≠ offer_id) table.

Definition remove_offer_from_db (offer_id : string) : M unit :=
  λ w, (tt, set_table (delete_where_id offer_id) w).

(** ** Notifier: [send_notification] *)

Definition header : string := "New 'Usado' offers found:" +:+ Str.newline.

(** [f"- {title} for ${price}\n{link}\n\n"] *)
Definition offer_text (it : item) : string :=
  "- " +:+ title it +:+ " for $" +:+ str_number (price it) +:+ Str.newline
  +:+ permalink it +:+ Str.newline +:+ Str.newline.

(** The complete message text: the header, then one block per offer. *)
Definition message_text (new_offers : list item) : string :=
  fold_left (λ text it, text +:+ offer_text it) new_offers header.

(** [twilio_client.messages.create(from_, body, to)] *)
Definition messages_create (E : env) (body : string) : M send_result :=
  λ w, (twilio E body, log_body body w).

(** The loop that splits the offers over message parts: [messages] are the
    parts already closed, [current_message] the part being filled. *)
Fixpoint pack_offers (new_offers : list item) (messages : list string)
    (current_message : string) : list string * string :=
  match new_offers with
  | [] => (messages, current_message)
  | it :: later =>
      let offer_text := offer_text it in
      if 1600 <? Str.len current_message + Str.len offer_text
      then pack_offers later (messages ++ [current_message]) offer_text
      else pack_offers later messages (current_message +:+ offer_text)
  end.

(** The parts sent when the whole text is refused for its length. *)
Definition split_messages (new_offers : list item) : list string :=
  let '(messages, current_message) := pack_offers new_offers [] header in
  if Str.truthy current_message then messages ++ [current_message]
  else messages.

Definition send_notification (E : env) (new_offers : list item) : M unit :=
  match new_offers with
  | [] => ret tt
  | _ =>
      sent <- messages_create E (message_text new_offers) ;;
      match sent with
      | Sent _ => ret tt
      | Failed error_message =>
          if Str.contains "1600" error_message
          then for_each (split_messages new_offers)
                 (λ msg, messages_create E msg ;; ret tt)
          else ret tt
      end
  end.

(** ** Reconciler: [job] *)

(** [for item in offers: all_current_offers[item.get("id")] = item] *)
Definition merge_offers (all_current_offers : Dict.t item)
    (offers : list item) : Dict.t item :=
  fold_left (λ d it, Dict.store (item_id it) it d) offers all_current_offers.

(** The loop over the search terms. *)
Fixpoint collect_offers (E : env) (terms : list string)
    (all_current_offers : Dict.t item) : M (Dict.t item) :=
  match terms with
  | [] => ret all_current_offers
  | query :: later =>
      offers <- fetch_offers E query ;;
      collect_offers E later (merge_offers all_current_offers offers)
  end.

(** The search terms of the source. *)
Definition lista_busquedas : list string := ["RTX Usado"; "GTX Usado"].

(** What a run found: the local variables [new_offers] and
    [disappeared_offer_ids] of [job], which the source logs. *)
Record outcome : Type := Outcome {
  new_offers : list item;
  disappeared_offer_ids : gset string
}.

(** One run over the given search terms.  The result is [None] when the run
    is skipped because nothing was fetched. *)
Definition job (E : env) (terms : list string) : M (option outcome) :=
  all_current_offers <- collect_offers E terms Dict.empty ;;
  let current_offers := Dict.values all_current_offers in
  match current_offers with
  | [] => ret None
  | _ =>
      existing_offer_ids <- get_existing_offer_ids ;;
      let current_offer_ids : gset string :=
        list_to_set (item_id <$> current_offers) in
      let new_offers :=
        filter (λ it, item_id it ∉ existing_offer_ids) current_offers in
      for_each new_offers (add_offer_to_db E) ;;
      let disappeared_offer_ids := existing_offer_ids ∖ current_offer_ids in
      for_each (elements disappeared_offer_ids) remove_offer_from_db ;;
      match new_offers with
      | [] => ret tt
      | _ => send_notification E new_offers
      end ;;
      ret (Some (Outcome new_offers disappeared_offer_ids))
  end.

(** ** A concrete environment for the examples *)

Module Scenario.

Definition offer (i t : string) : item :=
  Item i t (Int 100) ("https://articulo.mercadolibre.com.uy/" +:+ i).

(** A transport with the 1600-character limit of the real one. *)
Definition transport (body : string) : send_result :=
  if 1600 <? Str.len body
  then Failed "The concatenated message body exceeds the 1600 character limit"
  else Sent "SM0001".

(** Term A returns offer 1; term B returns offers 1 and 2. *)
Definition api (query : string) (offset : Z) : page :=
  if decide (offset = 0%Z) then
    if decide (query = "A") then PageResults [offer "1" "from A"]
    else if decide (query = "B")
    then PageResults [offer "1" "from B"; offer "2" "from B"]
    else PageResults []
  else PageResults [].

(** The clock at the INSERT of an offer: offer 2 is stored a second after
    the others. *)
Definition clock (it : item) : Z :=
  if decide (item_id it = "2") then 1700000001%Z else 1700000000%Z.

Definition E : env := Env api transport clock.

(** The same collaborators an hour later. *)
Definition E_later : env := Env api transport (λ it, clock it + 3600)%Z.

(** The store holds offer 3 only. *)
Definition w0 : world :=
  World [Row "3" "old" (Int 5) "https://x/3" 1600000000] [] [].

(** The store holds A, B and C; the only term returns B, C and D. *)
Definition api_bcd (query : string) (offset : Z) : page :=
  if decide (offset = 0%Z)
  then PageResults [offer "B" "b"; offer "C" "c"; offer "D" "d"]
  else PageResults [].

Definition E_bcd : env := Env api_bcd transport clock.

Definition w_abc : world :=
  World [Row "A" "a" (Int 1) "https://x/A" 1600000000;
         Row "B" "b" (Int 2) "https://x/B" 1600000000;
         Row "C" "c" (Int 3) "https://x/C" 1600000000] [] [].

(** A total outage: every request fails. *)
Definition E_outage : env := Env (λ _ _, PageError) transport clock.

(** A first page of 50 offers, then a failure. *)
Definition api_failing (query : string) (offset : Z) : page :=
  if decide (offset = 0%Z)
  then PageResults ((λ k : nat, offer (pretty k) "page 0") <$> seq 0 50)
  else PageError.

Definition E_failing : env := Env api_failing transport clock.

(** Offers with long titles: three whose blocks are 754 characters each,
    and one whose block of 1594 characters leaves no room for the
    header. *)
Definition long_offer (i : string) (n : nat) : item :=
  Item i (Str.repeat "x" n) (Int 100) "https://articulo.mercadolibre.com.uy/MLU".

Definition three_long : list item :=
  [long_offer "1" 700; long_offer "2" 700; long_offer "3" 700].

Definition one_huge : list item := [long_offer "1" 1540].

(** Blocks of 800, 1000 and 700 characters, in this order. *)
Definition mixed : list item :=
  [long_offer "1" 746; long_offer "2" 946; long_offer "3" 646].

End Scenario.

(** ** Notions the statements use *)

(** The offers of a page; a failed request has none. *)
Definition page_items (p : page) : list item :=
  match p with
  | PageError => []
  | PageResults results => results
  end.

(** A page after which [fetch_offers] asks for the next one. *)
Definition full_page (p : page) : Prop :=
  match p with
  | PageError => False
  | PageResults results => 50 ≤ length results
  end.

(** A page that returns zero results or fewer than 50 results. *)
Definition short_page (p : page) : Prop :=
  match p with
  | PageError => False
  | PageResults results => length results < 50
  end.

(** The first record of a list that carries the id, and the last one. *)
Definition first_with_id (i : string) (l : list item) : option item :=
  find (λ it, bool_decide (item_id it = i)) l.

Definition last_with_id (i : string) (l : list item) : option item :=
  first_with_id i (reverse l).

Definition empty_world : world := World [] [] [].

(** What [fetch_offers] returns for a term and the requests it issues; by
    [fetch_offers_run] neither depends on the world it runs in. *)
Definition fetched (E : env) (query : string) : list item :=
  (fetch_offers E query empty_world).1.

Definition fetch_log (E : env) (query : string) : list (string * Z) :=
  requests (fetch_offers E query empty_world).2.

(** The merged offers of a run, [current_offers] in [job]. *)
Definition current_offers (E : env) (terms : list string) (w : world)
    : list item :=
  Dict.values (collect_offers E terms Dict.empty w).1.

(** The requests of the pages 0 .. n-1 of a term. *)
Definition page_requests (query : string) (n : nat) : list (string * Z) :=
  (λ k : nat, (query, (50 * Z.of_nat k)%Z)) <$> seq 0 n.

(** The offers of the pages 0 .. n-1 of a term, in the order received. *)
Definition pages_read (E : env) (query : string) (n : nat) : list item :=
  concat ((λ k : nat, page_items (http_get E query (50 * Z.of_nat k)%Z))
            <$> seq 0 n).

(** The dictionary [fetch_offers] builds from a sequence of offers. *)
Definition accumulate (seen : list item) : Dict.t item :=
  fold_left add_unseen seen Dict.empty.

(** The text of a run of whole offer blocks. *)
Definition blocks (group : list item) : string :=
  foldr (λ it text, offer_text it +:+ text) EmptyString group.

(** The message parts that stand for a split of the offers into consecutive
    groups: every part is the text of the whole blocks of its group, and
    the part of the first group opens with [opening]. *)
Definition render_from (opening : string) (groups : list (list item))
    : list string :=
  match groups with
  | [] => []
  | g :: gs => (opening +:+ blocks g) :: (blocks <$> gs)
  end.

(** The parts of a split whose first part opens with the header line. *)
Definition render_parts (groups : list (list item)) : list string :=
  render_from header groups.

(** A part contains a complete offer block of the notified offers. *)
Definition contains_block (offers : list item) (part : string) : Prop :=
  ∃ it before after,
    it ∈ offers ∧ part = before +:+ offer_text it +:+ after.

Definition cons_first {A} (x : A) (groups : list (list A)) : list (list A) :=
  match groups with
  | [] => [[x]]
  | g :: gs => (x :: g) :: gs
  end.

(** The groups [pack_offers] forms when the part being filled has [len]
    characters: the group of the offers appended to that part, then one
    group per part opened later. *)
Fixpoint groups_from (len : nat) (offers : list item) : list (list item) :=
  match offers with
  | [] => [[]]
  | it :: later =>
      if 1600 <? len + Str.len (offer_text it)
      then [] :: cons_first it (groups_from (Str.len (offer_text it)) later)
      else cons_first it (groups_from (len + Str.len (offer_text it)) later)
  end.

(** The bodies [send_notification] hands to the transport; by
    [send_notification_run] they do not depend on the world. *)
Definition notification_bodies (E : env) (new_offers : list item)
    : list string :=
  outbox (send_notification E new_offers empty_world).2.

(** The world after some more transport calls. *)
Definition add_bodies (bodies : list string) (w : world) : world :=
  World (offers_table w) (requests w) (outbox w ++ bodies).

(** The ids in the table, as [get_existing_offer_ids] returns them. *)
Definition table_ids (table : list row) : gset string :=
  list_to_set (r_id <$> table).

(** The world after some more search requests. *)
Definition add_requests (log : list (string * Z)) (w : world) : world :=
  World (offers_table w) (requests w ++ log) (outbox w).

(** A dictionary of offers whose keys are the ids of its records. *)
Definition keyed (d : Dict.t item) : Prop :=
  Forall (λ kv, kv.1 = item_id kv.2) d.

(** ** Further notions *)

(** The row [add_offer_to_db] writes for an offer at a given time. *)
Definition row_of (now : Z) (it : item) : row :=
  Row (item_id it) (title it) (price it) (permalink it) now.

(** The row [add_offer_to_db] writes for an offer: its fields, and the
    clock as the INSERT of this offer reads it. *)
Definition stored_row (E : env) (it : item) : row :=
  row_of (current_timestamp E it) it.

(** The offers of a list without the later records of an id already met:
    what remains when each id keeps its first record only. *)
Fixpoint first_occurrences (seen : list item) : list item :=
  match seen with
  | [] => []
  | it :: later =>
      it :: filter (λ it', item_id it' ≠ item_id it) (first_occurrences later)
  end.

(** The texts of a list, one after the other. *)
Definition str_concat (texts : list string) : string :=
  foldr (λ text rest, text +:+ rest) EmptyString texts.

(** ** Start-up: [init_db] and the first run of [main] *)

(** [CREATE TABLE IF NOT EXISTS offers]: the database has no table yet
    ([None]) or has one; the result is the table that exists afterwards. *)
Definition init_db (db : option (list row)) : list row :=
  match db with
  | None => []
  | Some table => table
  end.

(** The first two statements of [main], [init_db()] and [job()], in a
    process that has issued no request and sent nothing yet.  The
    scheduling loop that follows is not part of the embedding. *)
Definition main_start (E : env) (terms : list string)
    (db : option (list row)) : option outcome * world :=
  job E terms (World (init_db db) [] []).

(** ** More concrete inputs *)

Module Examples.

Definition row3 : row := Row "3" "old" (Int 5) "https://x/3" 1600000000.

Definition row4 : row := Row "4" "older" (Int 7) "https://x/4" 1500000000.

(** A store with the offers 3 and 4. *)
Definition w34 : world := World [row3; row4] [] [].

(** Offer 3 as the search returns it now: another title and price. *)
Definition offer3 : item := Item "3" "new title" (Int 9) "https://x/3".

(** Every first page is empty. *)
Definition E_empty : env :=
  Env (λ _ _, PageResults []) Scenario.transport Scenario.clock.

(** A transport that fails for a reason other than the length. *)
Definition E_unreachable : env :=
  Env Scenario.api (λ _, Failed "HTTP 503 Service Unavailable")
    Scenario.clock.

(** A transport whose every error mentions 1600, whatever the length. *)
Definition E_always_1600 : env :=
  Env Scenario.api (λ _, Failed "Unable to reach +5981600") Scenario.clock.

(** The only page of every term holds offer 3 with its new fields. *)
Definition E_offer3 : env :=
  Env (λ _ offset,
         if decide (offset = 0%Z) then PageResults [offer3]
         else PageResults [])
      Scenario.transport Scenario.clock.

Definition two_short : list item :=
  [Scenario.offer "1" "from B"; Scenario.offer "2" "from B"].

(** An offer whose block alone has 1654 characters. *)
Definition oversize : item := Scenario.long_offer "9" 1600.

End Examples.

(** * Properties *)

(** ** Lists *)

Lemma filter_ext_in {A} (P Q : A → Prop) `{!∀ x, Decision (P x)}
    `{!∀ x, Decision (Q x)} (l : list A) :
  (∀ x, x ∈ l → P x ↔ Q x) → filter P l = filter Q l.
Proof.
  induction l as [|x l IH]; intros Hext; [done |].
  rewrite !filter_cons, IH by (intros y Hy; apply Hext; by right).
  apply decide_ext, Hext. by left.
Qed.

Lemma filter_all {A} (P : A → Prop) `{!∀ x, Decision (P x)} (l : list A) :
  (∀ x, x ∈ l → P x) → filter P l = l.
Proof.
  induction l as [|x l IH]; intros Hall; [done |].
  rewrite filter_cons_True by (apply Hall; by left).
  f_equal. apply IH. intros y Hy. apply Hall. by right.
Qed.

Lemma filter_none {A} (P : A → Prop) `{!∀ x, Decision (P x)} (l : list A) :
  (∀ x, x ∈ l → ¬ P x) → filter P l = [].
Proof.
  induction l as [|x l IH]; intros Hnone; [done |].
  rewrite filter_cons_False by (apply Hnone; by left).
  apply IH. intros y Hy. apply Hnone. by right.
Qed.

(** ** Dictionaries *)

Section dict_facts.
Context {V : Type}.
Implicit Types (d : Dict.t V) (k : string) (v : V).

Lemma dict_contains_keys k d : Dict.contains k d = true ↔ k ∈ Dict.keys d.
Proof.
  induction d as [|[k' v'] d IH]; simpl.
  - split; [done | by intros ?%elem_of_nil].
  - rewrite elem_of_cons, <- IH. case_decide; intuition congruence.
Qed.

Lemma dict_get_None k d : Dict.get k d = None ↔ k ∉ Dict.keys d.
Proof.
  induction d as [|[k' v'] d IH]; simpl.
  - split; [by intros _ ?%elem_of_nil | done].
  - rewrite not_elem_of_cons, <- IH. case_decide; intuition congruence.
Qed.

Lemma dict_get_store k k' v d :
  Dict.get k' (Dict.store k v d)
  = if decide (k = k') then Some v else Dict.get k' d.
Proof.
  induction d as [|[k0 v0] d IH]; simpl.
  - by repeat case_decide.
  - destruct (decide (k0 = k)) as [->|Hne]; simpl.
    + by destruct (decide (k = k')).
    + rewrite IH. destruct (decide (k0 = k')) as [->|]; [|done].
      by rewrite decide_False.
Qed.

Lemma dict_keys_cons k v d : Dict.keys ((k, v) :: d) = k :: Dict.keys d.
Proof. reflexivity. Qed.

Lemma dict_keys_store k v d :
  Dict.keys (Dict.store k v d)
  = if decide (k ∈ Dict.keys d) then Dict.keys d else Dict.keys d ++ [k].
Proof.
  induction d as [|[k0 v0] d IH]; cbn [Dict.store].
  - rewrite decide_False; [done | by intros ?%elem_of_nil].
  - destruct (decide (k0 = k)) as [->|Hne]; rewrite !dict_keys_cons.
    + rewrite decide_True; [done | by left].
    + rewrite IH. destruct (decide (k ∈ Dict.keys d)) as [Hin|Hin].
      * rewrite decide_True; [done | by right].
      * rewrite decide_False; [done |].
        rewrite not_elem_of_cons. by split.
Qed.

Lemma dict_store_NoDup k v d :
  NoDup (Dict.keys d) → NoDup (Dict.keys (Dict.store k v d)).
Proof.
  intros Hd. rewrite dict_keys_store. case_decide; [done |].
  apply NoDup_app. split_and!; [done | | apply NoDup_singleton].
  intros x Hx ->%list_elem_of_singleton. done.
Qed.

End dict_facts.

(** ** The dictionary of [fetch_offers] *)

Lemma first_with_id_cons i it l :
  first_with_id i (it :: l)
  = if decide (item_id it = i) then Some it else first_with_id i l.
Proof.
  unfold first_with_id. cbn [find].
  destruct (decide (item_id it = i)) as [Heq|Hne].
  - by rewrite bool_decide_eq_true_2.
  - by rewrite bool_decide_eq_false_2.
Qed.

Lemma first_with_id_None i l :
  first_with_id i l = None ↔ i ∉ item_id <$> l.
Proof.
  induction l as [|it l IH].
  - split; [by intros _ ?%elem_of_nil | done].
  - rewrite first_with_id_cons, fmap_cons, not_elem_of_cons, <- IH.
    case_decide; intuition congruence.
Qed.

Lemma first_with_id_Some i l r :
  first_with_id i l = Some r → r ∈ l ∧ item_id r = i.
Proof.
  induction l as [|it l IH]; [done |].
  rewrite first_with_id_cons. case_decide.
  - intros [= <-]. split; [by left | done].
  - intros [Hin Hid]%IH. split; [by right | done].
Qed.

Lemma first_with_id_NoDup i l r :
  NoDup (item_id <$> l) → r ∈ l → item_id r = i → first_with_id i l = Some r.
Proof.
  induction l as [|it l IH]; [by intros _ ?%elem_of_nil |].
  rewrite fmap_cons, NoDup_cons, elem_of_cons, first_with_id_cons.
  intros [Hnotin Hnd] [->|Hin] Hid.
  - by rewrite decide_True.
  - rewrite decide_False; [by apply IH |].
    intros Heq. apply Hnotin. rewrite Heq, <- Hid.
    by apply list_elem_of_fmap_2.
Qed.

Lemma first_with_id_app i l1 l2 :
  first_with_id i (l1 ++ l2)
  = match first_with_id i l1 with
    | Some r => Some r
    | None => first_with_id i l2
    end.
Proof.
  induction l1 as [|it l1 IH]; [done |].
  rewrite <- app_comm_cons, !first_with_id_cons. by case_decide.
Qed.

Lemma keyed_values_ids d : keyed d → item_id <$> Dict.values d = Dict.keys d.
Proof.
  unfold Dict.values, Dict.keys. induction 1 as [|[k v] d Hkv _ IH]; [done |].
  rewrite !fmap_cons, IH. simpl in Hkv |- *. by rewrite Hkv.
Qed.

Lemma keyed_first_with_id d i :
  keyed d → first_with_id i (Dict.values d) = Dict.get i d.
Proof.
  induction 1 as [|[k v] d Hkv _ IH]; [done |].
  change (Dict.values ((k, v) :: d)) with (v :: Dict.values d).
  rewrite first_with_id_cons. simpl in *. rewrite <- Hkv, IH. by case_decide.
Qed.

Lemma keyed_store d it : keyed d → keyed (Dict.store (item_id it) it d).
Proof.
  induction 1 as [|[k v] d Hkv Hd IH]; simpl.
  - by apply Forall_singleton.
  - case_decide; by apply Forall_cons.
Qed.

Lemma add_unseen_keyed d it : keyed d → keyed (add_unseen d it).
Proof. unfold add_unseen. case_match; [done | apply keyed_store]. Qed.

Lemma add_unseen_NoDup d it :
  NoDup (Dict.keys d) → NoDup (Dict.keys (add_unseen d it)).
Proof. unfold add_unseen. case_match; [done | apply dict_store_NoDup]. Qed.

Lemma add_unseen_get d it i :
  Dict.get i (add_unseen d it)
  = match Dict.get i d with
    | Some r => Some r
    | None => if decide (item_id it = i) then Some it else None
    end.
Proof.
  unfold add_unseen. destruct (Dict.contains _ d) eqn:Hc.
  - apply dict_contains_keys in Hc.
    destruct (Dict.get i d) eqn:Hg; [done |].
    apply dict_get_None in Hg. rewrite decide_False; [done | congruence].
  - rewrite dict_get_store. case_decide as Hid; [| by case_match].
    subst i. assert (Dict.get (item_id it) d = None) as ->; [| done].
    apply dict_get_None. rewrite <- dict_contains_keys. congruence.
Qed.

Lemma fold_add_unseen_keyed l d : keyed d → keyed (fold_left add_unseen l d).
Proof.
  revert d. induction l as [|it l IH]; intros d Hd; [done |].
  apply IH. by apply add_unseen_keyed.
Qed.

Lemma fold_add_unseen_NoDup l d :
  NoDup (Dict.keys d) → NoDup (Dict.keys (fold_left add_unseen l d)).
Proof.
  revert d. induction l as [|it l IH]; intros d Hd; [done |].
  apply IH. by apply add_unseen_NoDup.
Qed.

(** The first record seen with an id is the one that stays. *)
Lemma fold_add_unseen_get l d i :
  Dict.get i (fold_left add_unseen l d)
  = match Dict.get i d with
    | Some r => Some r
    | None => first_with_id i l
    end.
Proof.
  revert d. induction l as [|it l IH]; intros d; cbn [fold_left].
  - by case_match.
  - rewrite IH, add_unseen_get, first_with_id_cons.
    destruct (Dict.get i d); [done |]. by case_decide.
Qed.

(** ** Running the pagination loop *)

Lemma add_requests_nil w : add_requests [] w = w.
Proof. destruct w. unfold add_requests. simpl. by rewrite app_nil_r. Qed.

Lemma add_requests_app log1 log2 w :
  add_requests log2 (add_requests log1 w) = add_requests (log1 ++ log2) w.
Proof. unfold add_requests. simpl. by rewrite app_assoc. Qed.

Lemma fetch_pages_cons E q o later d w :
  fetch_pages E q (o :: later) d w
  = match http_get E q o with
    | PageError => (d, add_requests [(q, o)] w)
    | PageResults [] => (d, add_requests [(q, o)] w)
    | PageResults results =>
        if length results <? 50
        then (fold_left add_unseen results d, add_requests [(q, o)] w)
        else fetch_pages E q later (fold_left add_unseen results d)
               (add_requests [(q, o)] w)
    end.
Proof.
  cbn [fetch_pages]. unfold bind, requests_get.
  destruct (http_get E q o) as [|[|r rs]]; try reflexivity.
  by destruct (length (r :: rs) <? 50).
Qed.

(** The loop reads a prefix of the offsets: every page but the last one read
    is full, the last one read is not unless the offsets are exhausted, and
    the dictionary has taken the offers of the pages read, in order. *)
Lemma fetch_pages_run E q offsets d w :
  ∃ n, n ≤ length offsets ∧ (offsets ≠ [] → 0 < n) ∧
    fetch_pages E q offsets d w
    = (fold_left add_unseen
         (concat (page_items ∘ http_get E q <$> take n offsets)) d,
       add_requests (pair q <$> take n offsets) w) ∧
    (∀ j o, S j < n → offsets !! j = Some o → full_page (http_get E q o)) ∧
    (n < length offsets →
     ∀ o, offsets !! (n - 1) = Some o → ¬ full_page (http_get E q o)).
Proof.
  revert d w. induction offsets as [|o later IH]; intros d w.
  { exists 0. split_and!; try done; try lia.
    cbn. by rewrite add_requests_nil. }
  assert (∀ d', http_get E q o = PageError ∨ short_page (http_get E q o) →
    d' = fold_left add_unseen (page_items (http_get E q o)) d →
    fetch_pages E q (o :: later) d w = (d', add_requests [(q, o)] w) →
    ∃ n, n ≤ length (o :: later) ∧ (o :: later ≠ [] → 0 < n) ∧
      fetch_pages E q (o :: later) d w
      = (fold_left add_unseen
           (concat (page_items ∘ http_get E q <$> take n (o :: later))) d,
         add_requests (pair q <$> take n (o :: later)) w) ∧
      (∀ j o', S j < n → (o :: later) !! j = Some o' →
         full_page (http_get E q o')) ∧
      (n < length (o :: later) →
       ∀ o', (o :: later) !! (n - 1) = Some o' →
         ¬ full_page (http_get E q o'))) as Hstop.
  { intros d' Hlast -> Hrun. exists 1. split_and!.
    - simpl. lia.
    - lia.
    - rewrite Hrun. cbn. by rewrite app_nil_r.
    - intros j o' Hj. lia.
    - intros _ o' [= <-]. destruct Hlast as [->|Hshort]; [by intros [] |].
      destruct (http_get E q o); simpl in *; [done | lia]. }
  pose proof (fetch_pages_cons E q o later d w) as Hrun.
  destruct (http_get E q o) as [|[|r rs]] eqn:Hpage.
  - by apply (Hstop d); [left | |].
  - apply (Hstop d); [right; simpl; lia | done | done].
  - destruct (length (r :: rs) <? 50) eqn:Hlen.
    + apply Nat.ltb_lt in Hlen.
      by apply (Hstop (fold_left add_unseen (r :: rs) d)); [right | |].
    + apply Nat.ltb_ge in Hlen. clear Hstop.
      destruct (IH (fold_left add_unseen (r :: rs) d)
                  (add_requests [(q, o)] w))
        as (n & Hn & Hpos & Hrun' & Hfull & Hlast).
      exists (S n). split_and!.
      * simpl. lia.
      * lia.
      * rewrite Hrun, Hrun', add_requests_app.
        cbn [take fmap list_fmap concat compose]. fold (@fmap list _).
        by rewrite Hpage, fold_left_app.
      * intros [|j] o' Hj; cbn.
        -- intros [= <-]. by rewrite Hpage.
        -- apply Hfull. lia.
      * intros Hlt o'. cbn [length] in Hlt.
        assert (0 < n) as Hn0.
        { apply Hpos. intros ->. simpl in Hlt. lia. }
        replace (S n - 1) with (S (n - 1)) by lia. cbn.
        apply Hlast. lia.
Qed.

Lemma range_offsets :
  range 0 1001 50 = (λ k : nat, (50 * Z.of_nat k)%Z) <$> seq 0 21.
Proof. reflexivity. Qed.

(** [fetch_offers] reads the pages 0 .. n-1 for some n between 1 and 21 and
    returns the values of the dictionary accumulated from them. *)
Lemma fetch_offers_pages E q w :
  ∃ n, 1 ≤ n ≤ 21 ∧
    fetch_offers E q w
    = (Dict.values (accumulate (pages_read E q n)),
       add_requests (page_requests q n) w) ∧
    (∀ k, S k < n → full_page (http_get E q (50 * Z.of_nat k)%Z)) ∧
    (n < 21 → ¬ full_page (http_get E q (50 * Z.of_nat (n - 1))%Z)).
Proof.
  destruct (fetch_pages_run E q (range 0 1001 50) Dict.empty w)
    as (n & Hn & Hpos & Hrun & Hfull & Hlast).
  rewrite range_offsets in *. rewrite length_fmap, length_seq in *.
  assert (take n ((λ k : nat, (50 * Z.of_nat k)%Z) <$> seq 0 21)
          = (λ k : nat, (50 * Z.of_nat k)%Z) <$> seq 0 n) as Htake.
  { rewrite <- fmap_take, take_seq. f_equal. f_equal. lia. }
  assert (∀ k, k < 21 →
    ((λ k : nat, (50 * Z.of_nat k)%Z) <$> seq 0 21) !! k
    = Some (50 * Z.of_nat k)%Z) as Hlook.
  { intros k Hk. rewrite list_lookup_fmap, lookup_seq_lt; done. }
  exists n. split_and!.
  - apply Hpos. done.
  - done.
  - unfold fetch_offers, bind, ret. rewrite range_offsets, Hrun, Htake.
    unfold accumulate, pages_read, page_requests.
    by rewrite <- !list_fmap_compose.
  - intros k Hk. apply (Hfull k); [done | apply Hlook; lia].
  - intros Hlt. apply Hlast; [done | apply Hlook; lia].
Qed.

(** Neither the offers returned nor the requests issued depend on the
    world the loop starts in. *)
Lemma fetch_pages_world E q offsets d w :
  fetch_pages E q offsets d w
  = ((fetch_pages E q offsets d empty_world).1,
     add_requests (requests (fetch_pages E q offsets d empty_world).2) w).
Proof.
  revert d w. induction offsets as [|o later IH]; intros d w.
  { cbn. by rewrite add_requests_nil. }
  rewrite !fetch_pages_cons.
  destruct (http_get E q o) as [|[|r rs]]; try reflexivity.
  destruct (length (r :: rs) <? 50); [reflexivity |].
  rewrite (IH _ (add_requests _ w)), (IH _ (add_requests _ empty_world)).
  cbn [fst snd requests add_requests empty_world app].
  by rewrite add_requests_app.
Qed.

Lemma fetch_offers_run E q w :
  fetch_offers E q w = (fetched E q, add_requests (fetch_log E q) w).
Proof.
  unfold fetched, fetch_log, fetch_offers, bind, ret.
  rewrite (fetch_pages_world _ _ _ _ w).
  by destruct (fetch_pages E q (range 0 1001 50) Dict.empty empty_world).
Qed.

Lemma fetched_pages E q :
  ∃ n, 1 ≤ n ≤ 21 ∧
    fetched E q = Dict.values (accumulate (pages_read E q n)) ∧
    fetch_log E q = page_requests q n.
Proof.
  destruct (fetch_offers_pages E q empty_world) as (n & Hn & Hrun & _).
  exists n. unfold fetched, fetch_log. rewrite Hrun. done.
Qed.

Lemma accumulate_keyed seen : keyed (accumulate seen).
Proof. apply fold_add_unseen_keyed, Forall_nil_2. Qed.

Lemma accumulate_NoDup seen :
  NoDup (item_id <$> Dict.values (accumulate seen)).
Proof.
  rewrite keyed_values_ids by apply accumulate_keyed.
  apply fold_add_unseen_NoDup, NoDup_nil_2.
Qed.

Lemma accumulate_first_seen seen i :
  first_with_id i (Dict.values (accumulate seen)) = first_with_id i seen.
Proof.
  rewrite keyed_first_with_id by apply accumulate_keyed.
  unfold accumulate. by rewrite fold_add_unseen_get.
Qed.

Lemma fetched_NoDup E q : NoDup (item_id <$> fetched E q).
Proof.
  destruct (fetched_pages E q) as (n & _ & -> & _). apply accumulate_NoDup.
Qed.

(** ** Merging the terms *)

Lemma collect_offers_run E terms d w :
  collect_offers E terms d w
  = (fold_left merge_offers (fetched E <$> terms) d,
     add_requests (concat (fetch_log E <$> terms)) w).
Proof.
  revert d w. induction terms as [|q later IH]; intros d w.
  { cbn. by rewrite add_requests_nil. }
  cbn [collect_offers]. unfold bind at 1. rewrite fetch_offers_run, IH.
  by rewrite add_requests_app.
Qed.

Lemma fold_merge_offers ls d :
  fold_left merge_offers ls d = merge_offers d (concat ls).
Proof.
  revert d. induction ls as [|l ls IH]; intros d; [done |].
  cbn [fold_left concat]. rewrite IH. unfold merge_offers.
  by rewrite fold_left_app.
Qed.

Lemma last_with_id_snoc i l it :
  last_with_id i (l ++ [it])
  = if decide (item_id it = i) then Some it else last_with_id i l.
Proof.
  unfold last_with_id. by rewrite reverse_snoc, first_with_id_cons.
Qed.

(** The last record merged with an id is the one that stays. *)
Lemma merge_offers_get l d i :
  Dict.get i (merge_offers d l)
  = match last_with_id i l with
    | Some r => Some r
    | None => Dict.get i d
    end.
Proof.
  induction l as [|it l IH] using rev_ind; [done |].
  unfold merge_offers in *. rewrite fold_left_app. cbn [fold_left].
  rewrite dict_get_store, last_with_id_snoc, IH. by case_decide.
Qed.

Lemma merge_offers_keyed l d : keyed d → keyed (merge_offers d l).
Proof.
  revert d. induction l as [|it l IH]; intros d Hd; [done |].
  apply IH. by apply keyed_store.
Qed.

Lemma merge_offers_NoDup l d :
  NoDup (Dict.keys d) → NoDup (Dict.keys (merge_offers d l)).
Proof.
  revert d. induction l as [|it l IH]; intros d Hd; [done |].
  apply IH. by apply dict_store_NoDup.
Qed.

Lemma last_with_id_app i l1 l2 :
  last_with_id i (l1 ++ l2)
  = match last_with_id i l2 with
    | Some r => Some r
    | None => last_with_id i l1
    end.
Proof. unfold last_with_id. by rewrite reverse_app, first_with_id_app. Qed.

Lemma last_with_id_None i l : last_with_id i l = None ↔ i ∉ item_id <$> l.
Proof.
  unfold last_with_id. rewrite first_with_id_None, fmap_reverse.
  by rewrite elem_of_reverse.
Qed.

Lemma last_with_id_NoDup i l r :
  NoDup (item_id <$> l) → r ∈ l → item_id r = i → last_with_id i l = Some r.
Proof.
  intros Hnd Hin Hid. apply first_with_id_NoDup; [| | done].
  - by rewrite fmap_reverse, reverse_Permutation.
  - by apply elem_of_reverse.
Qed.

(** ** Store operations *)

Lemma insert_or_ignore_ids now it table :
  table_ids (insert_or_ignore now it table) = table_ids table ∪ {[item_id it]}.
Proof.
  unfold insert_or_ignore, table_ids. case_decide as Hin.
  - apply (elem_of_list_to_set (C := gset string)) in Hin. set_solver.
  - rewrite fmap_app, list_to_set_app_L. simpl. set_solver.
Qed.

Lemma insert_or_ignore_pk now it table :
  pk_unique table → pk_unique (insert_or_ignore now it table).
Proof.
  unfold insert_or_ignore, pk_unique. intros Hpk. case_decide as Hin; [done |].
  rewrite fmap_app. apply NoDup_app. split_and!; [done | | apply NoDup_singleton].
  intros x Hx ->%list_elem_of_singleton. done.
Qed.

Lemma delete_where_id_ids offer_id table :
  table_ids (delete_where_id offer_id table) = table_ids table ∖ {[offer_id]}.
Proof.
  unfold delete_where_id, table_ids. apply set_eq. intros i.
  rewrite elem_of_difference, !elem_of_list_to_set, !list_elem_of_fmap.
  rewrite not_elem_of_singleton. split.
  - intros (r & -> & [Hin Hne]%list_elem_of_filter). eauto.
  - intros [(r & -> & Hin) Hne]. exists r. split; [done |].
    by apply list_elem_of_filter.
Qed.

Lemma delete_where_id_pk offer_id table :
  pk_unique table → pk_unique (delete_where_id offer_id table).
Proof.
  unfold delete_where_id, pk_unique. induction table as [|r table IH]; [done |].
  rewrite fmap_cons, NoDup_cons. intros [Hnotin Hnd].
  rewrite filter_cons. case_decide; [| by apply IH].
  rewrite fmap_cons, NoDup_cons. split; [| by apply IH].
  intros (r' & Heq & [_ Hin]%list_elem_of_filter)%list_elem_of_fmap.
  apply Hnotin. rewrite Heq. by apply list_elem_of_fmap_2.
Qed.

Lemma for_each_add_offer E l w :
  for_each l (add_offer_to_db E) w
  = (tt, set_table
           (fold_left (λ t it, insert_or_ignore (current_timestamp E it) it t)
              l)
           w).
Proof.
  revert w. induction l as [|it l IH]; intros w; [by destruct w |].
  cbn [for_each]. unfold bind at 1, add_offer_to_db at 1. by rewrite IH.
Qed.

Lemma for_each_remove_offer l w :
  for_each l remove_offer_from_db w
  = (tt, set_table (fold_left (λ t i, delete_where_id i t) l) w).
Proof.
  revert w. induction l as [|i l IH]; intros w; [by destruct w |].
  cbn [for_each]. unfold bind at 1, remove_offer_from_db at 1. by rewrite IH.
Qed.

Lemma fold_insert_ids (now : item → Z) l table :
  table_ids (fold_left (λ t it, insert_or_ignore (now it) it t) l table)
  = table_ids table ∪ list_to_set (item_id <$> l).
Proof.
  revert table. induction l as [|it l IH]; intros table; cbn [fold_left].
  - set_solver.
  - rewrite IH, insert_or_ignore_ids. set_solver.
Qed.

Lemma fold_delete_ids (l : list string) table :
  table_ids (fold_left (λ t i, delete_where_id i t) l table)
  = table_ids table ∖ list_to_set l.
Proof.
  revert table. induction l as [|i l IH]; intros table; cbn [fold_left].
  - set_solver.
  - rewrite IH, delete_where_id_ids. set_solver.
Qed.

Lemma fold_insert_pk (now : item → Z) l table :
  pk_unique table →
  pk_unique (fold_left (λ t it, insert_or_ignore (now it) it t) l table).
Proof.
  revert table. induction l as [|it l IH]; intros table Hpk; [done |].
  apply IH. by apply insert_or_ignore_pk.
Qed.

Lemma fold_delete_pk (l : list string) table :
  pk_unique table →
  pk_unique (fold_left (λ t i, delete_where_id i t) l table).
Proof.
  revert table. induction l as [|i l IH]; intros table Hpk; [done |].
  apply IH. by apply delete_where_id_pk.
Qed.

(** ** Running the notifier and the reconciler *)

Lemma add_bodies_nil w : add_bodies [] w = w.
Proof. destruct w. unfold add_bodies. simpl. by rewrite app_nil_r. Qed.

Lemma add_bodies_app b1 b2 w :
  add_bodies b2 (add_bodies b1 w) = add_bodies (b1 ++ b2) w.
Proof. unfold add_bodies. simpl. by rewrite app_assoc. Qed.

Lemma for_each_messages_create E msgs w :
  for_each msgs (λ msg, messages_create E msg ;; ret tt) w
  = (tt, add_bodies msgs w).
Proof.
  revert w. induction msgs as [|msg msgs IH]; intros w.
  { cbn. by rewrite add_bodies_nil. }
  cbn [for_each]. unfold bind at 1 2, messages_create at 1, ret at 1.
  rewrite IH. f_equal. apply (add_bodies_app [msg]).
Qed.

(** The bodies handed to the transport: the whole text first and, when it
    is refused with an error that mentions 1600, the parts after it. *)
Lemma send_notification_bodies E l w :
  send_notification E l w
  = (tt, add_bodies
           match l with
           | [] => []
           | _ =>
               message_text l ::
               match twilio E (message_text l) with
               | Sent _ => []
               | Failed error_message =>
                   if Str.contains "1600" error_message
                   then split_messages l else []
               end
           end w).
Proof.
  destruct l as [|it l]; [cbn; by rewrite add_bodies_nil |].
  cbn [send_notification]. unfold bind at 1, messages_create at 1.
  destruct (twilio E (message_text (it :: l))) as [sid|err]; [done |].
  destruct (Str.contains "1600" err); [| done].
  rewrite for_each_messages_create. f_equal. apply (add_bodies_app [_]).
Qed.

Lemma send_notification_run E l w :
  send_notification E l w = (tt, add_bodies (notification_bodies E l) w).
Proof.
  unfold notification_bodies.
  by rewrite (send_notification_bodies E l empty_world),
    send_notification_bodies.
Qed.

Lemma current_offers_merge E terms w :
  current_offers E terms w
  = Dict.values (merge_offers Dict.empty (concat (fetched E <$> terms))).
Proof.
  unfold current_offers. by rewrite collect_offers_run, fold_merge_offers.
Qed.

(** A run that fetched nothing only issued its search requests. *)
Lemma job_skip E terms w :
  current_offers E terms w = [] →
  job E terms w = (None, add_requests (concat (fetch_log E <$> terms)) w).
Proof.
  unfold current_offers, job. unfold bind at 1. rewrite !collect_offers_run.
  cbn [fst]. cbv beta iota zeta. by intros ->.
Qed.

(** A run that fetched something: its outcome and the world it leaves. *)
Lemma job_run E terms w :
  current_offers E terms w ≠ [] →
  let existing := table_ids (offers_table w) in
  let current := current_offers E terms w in
  let new := filter (λ it, item_id it ∉ existing) current in
  let gone := existing ∖ list_to_set (item_id <$> current) in
  job E terms w
  = (Some (Outcome new gone),
     World
       (fold_left (λ t i, delete_where_id i t) (elements gone)
          (fold_left (λ t it, insert_or_ignore (current_timestamp E it) it t)
             new (offers_table w)))
       (requests w ++ concat (fetch_log E <$> terms))
       (outbox w ++ notification_bodies E new)).
Proof.
  unfold current_offers, job. unfold bind at 1. rewrite !collect_offers_run.
  cbn [fst]. intros Hne. cbv beta iota zeta.
  destruct (Dict.values _) as [|it current] eqn:Hcur; [done |].
  rewrite <- Hcur. clear Hne Hcur it current.
  unfold bind at 1, get_existing_offer_ids at 1.
  unfold bind at 1. rewrite for_each_add_offer.
  unfold bind at 1. rewrite for_each_remove_offer.
  unfold bind, ret. fold (table_ids (offers_table w)).
  cbn [offers_table add_requests set_table requests outbox].
  fold (table_ids (offers_table w)).
  destruct (filter _ _) as [|it new] eqn:Hnew.
  - unfold notification_bodies. cbn. by rewrite app_nil_r.
  - by rewrite send_notification_run.
Qed.

(** ** Strings *)

Lemma str_app_cons c s t : String c s +:+ t = String c (s +:+ t).
Proof. reflexivity. Qed.

Lemma str_app_nil_r s : s +:+ EmptyString = s.
Proof. induction s as [|c s IH]; [done |]. by rewrite str_app_cons, IH. Qed.

Lemma str_app_assoc s t u : (s +:+ t) +:+ u = s +:+ t +:+ u.
Proof. induction s as [|c s IH]; [done |]. by rewrite !str_app_cons, IH. Qed.

Lemma str_len_app s t : Str.len (s +:+ t) = Str.len s + Str.len t.
Proof.
  induction s as [|c s IH]; [done |].
  rewrite str_app_cons. unfold Str.len in *. simpl. by rewrite IH.
Qed.

Lemma str_truthy_app s t : Str.truthy s = true → Str.truthy (s +:+ t) = true.
Proof. by destruct s. Qed.

Lemma header_len : Str.len header = 26.
Proof. reflexivity. Qed.

Lemma offer_text_truthy it : Str.truthy (offer_text it) = true.
Proof. reflexivity. Qed.

Lemma message_text_blocks l : message_text l = header +:+ blocks l.
Proof.
  unfold message_text. generalize header.
  induction l as [|it l IH]; intros text; cbn [fold_left blocks foldr].
  - by rewrite str_app_nil_r.
  - fold (blocks l). by rewrite IH, str_app_assoc.
Qed.

(** ** The packing loop and the groups it forms *)

Lemma groups_from_nonempty len l : ∃ g gs, groups_from len l = g :: gs.
Proof.
  revert len. induction l as [|it l IH]; intros len; cbn [groups_from].
  - by eexists _, _.
  - case_match; [by eexists _, _ |].
    destruct (IH (len + Str.len (offer_text it))) as (g & gs & ->).
    by eexists _, _.
Qed.

Lemma render_groups_nil opening len : 
  render_from opening (groups_from len []) = [opening].
Proof. cbn. by rewrite str_app_nil_r. Qed.

Lemma render_groups_seal opening len it later :
  1600 < len + Str.len (offer_text it) →
  render_from opening (groups_from len (it :: later))
  = opening :: render_from (offer_text it)
                 (groups_from (Str.len (offer_text it)) later).
Proof.
  intros Hlen%Nat.ltb_lt. cbn [groups_from]. rewrite Hlen.
  destruct (groups_from_nonempty (Str.len (offer_text it)) later)
    as (g & gs & ->).
  cbn. by rewrite str_app_nil_r.
Qed.

Lemma render_groups_append opening len it later :
  len + Str.len (offer_text it) ≤ 1600 →
  render_from opening (groups_from len (it :: later))
  = render_from (opening +:+ offer_text it)
      (groups_from (len + Str.len (offer_text it)) later).
Proof.
  intros Hlen%Nat.ltb_ge. cbn [groups_from]. rewrite Hlen.
  destruct (groups_from_nonempty (len + Str.len (offer_text it)) later)
    as (g & gs & ->).
  cbn. by rewrite str_app_assoc.
Qed.

Lemma concat_cons_first {A} (x : A) g gs :
  concat (cons_first x (g :: gs)) = x :: concat (g :: gs).
Proof. reflexivity. Qed.

Lemma groups_from_concat len l : concat (groups_from len l) = l.
Proof.
  revert len. induction l as [|it l IH]; intros len; [done |].
  cbn [groups_from]. case_match.
  - specialize (IH (Str.len (offer_text it))).
    destruct (groups_from_nonempty (Str.len (offer_text it)) l)
      as (g & gs & Hg).
    rewrite Hg in *. cbn [concat app]. by rewrite concat_cons_first, IH.
  - specialize (IH (len + Str.len (offer_text it))).
    destruct (groups_from_nonempty (len + Str.len (offer_text it)) l)
      as (g & gs & Hg).
    rewrite Hg in *. by rewrite concat_cons_first, IH.
Qed.

Lemma length_cons_first {A} (x : A) g gs :
  length (cons_first x (g :: gs)) = length (g :: gs).
Proof. reflexivity. Qed.

Lemma length_render_from opening groups :
  length (render_from opening groups) = length groups.
Proof. destruct groups; [done |]. cbn. by rewrite length_fmap. Qed.

(** The loop, read through the groups it forms. *)
Lemma pack_offers_groups l messages current :
  let '(messages', current') := pack_offers l messages current in
  messages' ++ [current']
  = messages ++ render_from current (groups_from (Str.len current) l).
Proof.
  revert messages current.
  induction l as [|it l IH]; intros messages current.
  { cbn [pack_offers]. by rewrite render_groups_nil. }
  cbn [pack_offers]. cbv zeta.
  destruct (1600 <? Str.len current + Str.len (offer_text it)) eqn:Hlen.
  - apply Nat.ltb_lt in Hlen. rewrite render_groups_seal by done.
    specialize (IH (messages ++ [current]) (offer_text it)).
    destruct (pack_offers l _ _) as [messages' current'].
    by rewrite IH, <- app_assoc.
  - apply Nat.ltb_ge in Hlen. rewrite render_groups_append by done.
    specialize (IH messages (current +:+ offer_text it)).
    destruct (pack_offers l _ _) as [messages' current'].
    by rewrite IH, str_len_app.
Qed.

Lemma pack_offers_truthy l messages current :
  Str.truthy current = true →
  Str.truthy (pack_offers l messages current).2 = true.
Proof.
  revert messages current.
  induction l as [|it l IH]; intros messages current Hcur; [done |].
  cbn [pack_offers]. cbv zeta. case_match.
  - apply IH, offer_text_truthy.
  - by apply IH, str_truthy_app.
Qed.

(** [split_messages] sends the parts of the groups formed from the header. *)
Lemma split_messages_groups l :
  split_messages l = render_parts (groups_from (Str.len header) l).
Proof.
  unfold split_messages, render_parts.
  pose proof (pack_offers_groups l [] header) as Hgroups.
  pose proof (pack_offers_truthy l [] header eq_refl) as Htruthy.
  destruct (pack_offers l [] header) as [messages current].
  simpl in Htruthy. by rewrite Htruthy, Hgroups.
Qed.

Lemma render_groups_bound l opening :
  Str.len opening ≤ 1600 →
  Forall (λ it, Str.len (offer_text it) ≤ 1600) l →
  Forall (λ part, Str.len part ≤ 1600)
    (render_from opening (groups_from (Str.len opening) l)).
Proof.
  revert opening. induction l as [|it l IH]; intros opening Hopen Hl.
  { rewrite render_groups_nil. by apply Forall_singleton. }
  apply Forall_cons in Hl as [Hit Hl].
  destruct (decide (1600 < Str.len opening + Str.len (offer_text it))).
  - rewrite render_groups_seal by done. apply Forall_cons. split; [done |].
    by apply IH.
  - rewrite render_groups_append by lia. rewrite <- str_len_app.
    apply IH; [rewrite str_len_app; lia | done].
Qed.

Lemma groups_from_length_cons len it l :
  length (groups_from len (it :: l))
  = if 1600 <? len + Str.len (offer_text it)
    then S (length (groups_from (Str.len (offer_text it)) l))
    else length (groups_from (len + Str.len (offer_text it)) l).
Proof.
  cbn [groups_from]. case_match.
  - destruct (groups_from_nonempty (Str.len (offer_text it)) l)
      as (g & gs & ->). done.
  - destruct (groups_from_nonempty (len + Str.len (offer_text it)) l)
      as (g & gs & ->). done.
Qed.

(** A fuller current part never saves a part, and an emptier one saves at
    most one. *)
Lemma groups_from_slack l len len' :
  (len ≤ len' → length (groups_from len l) ≤ length (groups_from len' l))
  ∧ length (groups_from len l) ≤ S (length (groups_from len' l)).
Proof.
  revert len len'. induction l as [|it l IH]; intros len len'.
  { cbn. lia. }
  rewrite !groups_from_length_cons.
  set (t := Str.len (offer_text it)).
  destruct (Nat.ltb_spec 1600 (len + t)) as [Ha|Ha];
    destruct (Nat.ltb_spec 1600 (len' + t)) as [Hb|Hb].
  - lia.
  - split; [lia |]. apply le_n_S, IH. lia.
  - split; [intros _; apply IH |].
    pose proof (proj2 (IH (len + t) t)). lia.
  - split; [intros Hle; apply IH; lia | apply IH].
Qed.

(** Blocks that fit in the current part are appended to it. *)
Lemma groups_from_fit g rest len :
  len + Str.len (blocks g) ≤ 1600 →
  length (groups_from len (g ++ rest))
  = length (groups_from (len + Str.len (blocks g)) rest).
Proof.
  revert len. induction g as [|it g IH]; intros len.
  { intros _. cbn. by rewrite Nat.add_0_r. }
  cbn [blocks foldr]. fold (blocks g). rewrite str_len_app. intros Hfit.
  rewrite <- app_comm_cons, groups_from_length_cons.
  assert ((1600 <? len + Str.len (offer_text it)) = false) as ->
    by (apply Nat.ltb_ge; lia).
  rewrite IH by lia. by rewrite Nat.add_assoc.
Qed.

(** No split of the offers into consecutive groups of whole blocks that
    respects the limit has fewer parts than the loop forms. *)
Lemma groups_from_minimal gs g len :
  len + Str.len (blocks g) ≤ 1600 →
  Forall (λ g', Str.len (blocks g') ≤ 1600) gs →
  length (groups_from len (concat (g :: gs))) ≤ length (g :: gs).
Proof.
  revert g len. induction gs as [|g' gs IH]; intros g len Hg Hgs.
  { cbn [concat]. rewrite groups_from_fit by done. cbn. lia. }
  apply Forall_cons in Hgs as [Hg' Hgs].
  change (concat (g :: g' :: gs)) with (g ++ concat (g' :: gs)).
  rewrite groups_from_fit by done.
  pose proof (proj2 (groups_from_slack (concat (g' :: gs))
                       (len + Str.len (blocks g)) 0)) as Hslack.
  specialize (IH g' 0 Hg' Hgs). cbn [length] in *. lia.
Qed.

Lemma groups_from_tail_nonempty len l :
  Forall (λ g, g ≠ []) (tail (groups_from len l)).
Proof.
  revert len. induction l as [|it l IH]; intros len; cbn [groups_from].
  { by apply Forall_nil. }
  case_match.
  - specialize (IH (Str.len (offer_text it))).
    destruct (groups_from_nonempty (Str.len (offer_text it)) l)
      as (g & gs & Hg).
    rewrite Hg in *. cbn in *. by apply Forall_cons.
  - specialize (IH (len + Str.len (offer_text it))).
    destruct (groups_from_nonempty (len + Str.len (offer_text it)) l)
      as (g & gs & Hg).
    by rewrite Hg in *.
Qed.

Lemma blocks_contains_block offers g :
  g ≠ [] → g ⊆ offers → contains_block offers (blocks g).
Proof.
  destruct g as [|it g]; [done |]. intros _ Hsub.
  exists it, EmptyString, (blocks g). split; [| done].
  apply Hsub. by left.
Qed.

(** * The Search Client *)

Lemma not_full_page p : ¬ full_page p → p = PageError ∨ short_page p.
Proof. destruct p; simpl; [by left | right; lia]. Qed.

Lemma first_page_requested q n : 1 ≤ n → (q, 0%Z) ∈ page_requests q n.
Proof.
  intros Hn. unfold page_requests.
  apply (list_elem_of_fmap_2' _ _ 0); [| done]. apply elem_of_seq. lia.
Qed.

(** C5. Whatever the pages of a term hold, [fetch_offers] returns every
    offer id at most once, and the record it returns for an id is the first
    one with that id in the pages it read, in the order it read them. *)
Theorem fetch_offers_dedup (E : env) (query : string) (w : world) :
  ∃ n, 1 ≤ n ≤ 21 ∧
    requests (fetch_offers E query w).2
    = requests w ++ page_requests query n ∧
    NoDup (item_id <$> (fetch_offers E query w).1) ∧
    ∀ i, first_with_id i (fetch_offers E query w).1
         = first_with_id i (pages_read E query n).
Proof.
  destruct (fetch_offers_pages E query w) as (n & Hn & -> & _).
  exists n. split_and!; [lia | lia | done | apply accumulate_NoDup |].
  intros i. apply accumulate_first_seen.
Qed.

(** C6. [fetch_offers] requests the pages at offsets 0, 50, 100, ... in
    order, at least one and at most 21 of them (the last possible offset is
    1000), and a page that fails or returns fewer than 50 results (zero
    included) is the last one requested; before the 21st page nothing else
    ends the pagination. *)
Theorem fetch_offers_pagination (E : env) (query : string) (w : world) :
  ∃ n, 1 ≤ n ≤ 21 ∧
    requests (fetch_offers E query w).2
    = requests w ++ page_requests query n ∧
    Forall (λ request, 0 ≤ request.2 ≤ 1000)%Z (page_requests query n) ∧
    (∀ k, k < n →
       http_get E query (50 * Z.of_nat k)%Z = PageError
       ∨ short_page (http_get E query (50 * Z.of_nat k)%Z) →
       n = S k) ∧
    (n < 21 →
       http_get E query (50 * Z.of_nat (n - 1))%Z = PageError
       ∨ short_page (http_get E query (50 * Z.of_nat (n - 1))%Z)).
Proof.
  destruct (fetch_offers_pages E query w) as (n & Hn & -> & Hfull & Hlast).
  exists n. split_and!; [lia | lia | done | | |].
  - unfold page_requests. apply Forall_fmap, Forall_forall.
    intros k Hk%elem_of_seq. simpl. lia.
  - intros k Hk Hends. destruct (decide (S k < n)) as [Hlt|]; [| lia].
    specialize (Hfull k Hlt).
    destruct Hends as [Herr|Hshort]; [by rewrite Herr in Hfull |].
    destruct (http_get E query _); simpl in *; [done | lia].
  - intros Hlt. by apply not_full_page, Hlast.
Qed.

Lemma job_requests E terms w :
  requests (job E terms w).2
  = requests w ++ concat (fetch_log E <$> terms).
Proof.
  destruct (current_offers E terms w) as [|it l] eqn:Hcur.
  - by rewrite job_skip.
  - rewrite job_run; [done | by rewrite Hcur].
Qed.

Lemma pages_read_S E q n :
  pages_read E q (S n)
  = pages_read E q n ++ page_items (http_get E q (50 * Z.of_nat n)%Z).
Proof.
  unfold pages_read. rewrite seq_S, fmap_app, concat_app. cbn.
  by rewrite app_nil_r.
Qed.

(** * The Reconciler *)

Lemma elem_of_concat {A} (x : A) (ls : list (list A)) :
  x ∈ concat ls ↔ ∃ l, x ∈ l ∧ l ∈ ls.
Proof.
  induction ls as [|l ls IH]; cbn [concat].
  - split; [by intros ?%elem_of_nil | by intros (l & _ & ?%elem_of_nil)].
  - rewrite elem_of_app, IH. split.
    + intros [Hx|(l' & Hx & Hl')]; [exists l | exists l'];
        (split; [done |]); [by left | by right].
    + intros (l' & Hx & [->|Hl']%elem_of_cons); [by left | right; eauto].
Qed.

Lemma current_offers_keyed E terms :
  keyed (merge_offers Dict.empty (concat (fetched E <$> terms))).
Proof. apply merge_offers_keyed, Forall_nil_2. Qed.

Lemma current_offers_NoDup E terms w :
  NoDup (item_id <$> current_offers E terms w).
Proof.
  rewrite current_offers_merge, keyed_values_ids
    by apply current_offers_keyed.
  apply merge_offers_NoDup, NoDup_nil_2.
Qed.

(** C7. When a term returns a record and no later term returns its id, that
    record is the one the merged mapping holds for the id, whatever the
    earlier terms returned for it: the later term's record overwrites. *)
Theorem merge_last_write_wins (E : env) (before : list string)
    (query : string) (after : list string) (r : item) (w : world) :
  r ∈ fetched E query →
  (∀ q', q' ∈ after → item_id r ∉ item_id <$> fetched E q') →
  Dict.get (item_id r)
    (collect_offers E (before ++ query :: after) Dict.empty w).1 = Some r
  ∧ first_with_id (item_id r)
      (current_offers E (before ++ query :: after) w) = Some r
  ∧ NoDup (item_id <$> current_offers E (before ++ query :: after) w).
Proof.
  intros Hr Hafter.
  assert (Dict.get (item_id r)
    (merge_offers Dict.empty
       (concat (fetched E <$> before ++ query :: after))) = Some r) as Hget.
  { rewrite merge_offers_get, fmap_app, concat_app, fmap_cons.
    cbn [concat]. rewrite !last_with_id_app.
    assert (last_with_id (item_id r) (concat (fetched E <$> after)) = None)
      as ->.
    { apply last_with_id_None.
      intros (it & Hid & Hit)%list_elem_of_fmap.
      apply elem_of_concat in Hit as (l & Hit & Hl).
      apply list_elem_of_fmap in Hl as (q' & -> & Hq').
      apply (Hafter q' Hq'). rewrite Hid. by apply list_elem_of_fmap_2. }
    rewrite (last_with_id_NoDup _ _ r); [done | apply fetched_NoDup | done..]. }
  split_and!.
  - by rewrite collect_offers_run, fold_merge_offers.
  - rewrite current_offers_merge, keyed_first_with_id; [done |].
    apply current_offers_keyed.
  - apply current_offers_NoDup.
Qed.

(** Terms A and B both return offer 1; the merged record is the one of B. *)
Lemma merge_last_write_wins_witness :
  Scenario.offer "1" "from B" ∈ fetched Scenario.E "B"
  ∧ Scenario.offer "1" "from A" ∈ fetched Scenario.E "A"
  ∧ first_with_id "1" (current_offers Scenario.E ["A"; "B"] Scenario.w0)
    = Some (Scenario.offer "1" "from B").
Proof.
  assert (Scenario.offer "1" "from B" ∈ fetched Scenario.E "B") as HB
    by (by left).
  split_and!; [done | by left |].
  apply (merge_last_write_wins Scenario.E ["A"] "B" []
           (Scenario.offer "1" "from B") Scenario.w0 HB).
  by intros q' ?%elem_of_nil.
Defined.

(** C1. In a run whose merged offers are not empty, [new_offers] are exactly
    the merged offers whose id is not in the store, as fetched and in the
    merged order, and [disappeared_offer_ids] is exactly the set of stored
    ids minus the ids of the merged offers. *)
Theorem job_diff (E : env) (terms : list string) (w : world) :
  current_offers E terms w ≠ [] →
  ∃ out, (job E terms w).1 = Some out ∧
    new_offers out
    = filter (λ it, item_id it ∉ table_ids (offers_table w))
        (current_offers E terms w) ∧
    (∀ it, it ∈ new_offers out ↔
       it ∈ current_offers E terms w ∧ item_id it ∉ r_id <$> offers_table w) ∧
    disappeared_offer_ids out
    = table_ids (offers_table w)
      ∖ list_to_set (item_id <$> current_offers E terms w) ∧
    (∀ i, i ∈ disappeared_offer_ids out ↔
       i ∈ r_id <$> offers_table w ∧ i ∉ item_id <$> current_offers E terms w).
Proof.
  intros Hne. rewrite (job_run E terms w Hne). eexists. cbn [fst].
  split; [reflexivity |]. cbn [new_offers disappeared_offer_ids].
  split_and!; [done | | done |].
  - intros it. rewrite list_elem_of_filter. unfold table_ids.
    rewrite elem_of_list_to_set. tauto.
  - intros i. unfold table_ids.
    by rewrite elem_of_difference, !elem_of_list_to_set.
Qed.

(** The store holds A, B and C and the search returns B, C and D: the only
    new offer is D and the only disappeared id is A. *)
Lemma job_diff_witness :
  current_offers Scenario.E_bcd ["q"] Scenario.w_abc ≠ []
  ∧ ∃ out, (job Scenario.E_bcd ["q"] Scenario.w_abc).1 = Some out
      ∧ new_offers out = [Scenario.offer "D" "d"]
      ∧ ∀ i, i ∈ disappeared_offer_ids out ↔ i = "A".
Proof.
  assert (current_offers Scenario.E_bcd ["q"] Scenario.w_abc ≠ []) as Hne
    by done.
  split; [done |].
  destruct (job_diff Scenario.E_bcd ["q"] Scenario.w_abc Hne)
    as (out & Hout & Hnew & _ & _ & Hgone).
  exists out. split_and!; [done | by rewrite Hnew |].
  intros i. rewrite Hgone.
  change (r_id <$> offers_table Scenario.w_abc) with ["A"; "B"; "C"].
  change (item_id <$> current_offers Scenario.E_bcd ["q"] Scenario.w_abc)
    with ["B"; "C"; "D"].
  rewrite !elem_of_cons, !elem_of_nil. split.
  - intros [[->|[->|[->|[]]]] Hcur]; [done | exfalso; apply Hcur; auto..].
  - intros ->. split; [auto |]. intros [?|[?|[?|[]]]]; done.
Defined.

(** C2. Whatever the store holds, a run whose merged offers are empty ends
    without an outcome, leaves the table as it was and hands nothing to the
    transport. *)
Theorem job_empty_guard (E : env) (terms : list string) (w : world) :
  current_offers E terms w = [] →
  (job E terms w).1 = None
  ∧ offers_table (job E terms w).2 = offers_table w
  ∧ outbox (job E terms w).2 = outbox w.
Proof. intros Hcur. by rewrite job_skip. Qed.

(** A total outage with offer 3 in the store: nothing is touched. *)
Lemma job_empty_guard_witness :
  current_offers Scenario.E_outage lista_busquedas Scenario.w0 = []
  ∧ (job Scenario.E_outage lista_busquedas Scenario.w0).1 = None
  ∧ offers_table (job Scenario.E_outage lista_busquedas Scenario.w0).2
    = offers_table Scenario.w0
  ∧ outbox (job Scenario.E_outage lista_busquedas Scenario.w0).2 = [].
Proof.
  split; [reflexivity |].
  apply (job_empty_guard Scenario.E_outage lista_busquedas Scenario.w0).
  reflexivity.
Defined.

Lemma job_table_ids E terms w :
  current_offers E terms w ≠ [] →
  table_ids (offers_table (job E terms w).2)
  = list_to_set (item_id <$> current_offers E terms w).
Proof.
  intros Hne. rewrite (job_run E terms w Hne). cbn [snd offers_table].
  rewrite fold_delete_ids, fold_insert_ids, list_to_set_elements_L.
  set (existing := table_ids (offers_table w)).
  set (current := current_offers E terms w).
  assert (∀ i, i ∈ (list_to_set
      (item_id <$> filter (λ it, item_id it ∉ existing) current) : gset string)
    ↔ i ∈ (list_to_set (item_id <$> current) : gset string) ∧ i ∉ existing)
    as Hnew.
  { intros i. rewrite !elem_of_list_to_set, !list_elem_of_fmap. split.
    - intros (it & -> & [Hid Hit]%list_elem_of_filter). eauto.
    - intros [(it & -> & Hit) Hid]. exists it. split; [done |].
      by apply list_elem_of_filter. }
  apply set_eq. intros i.
  rewrite elem_of_difference, elem_of_union, elem_of_difference, Hnew.
  destruct (decide (i ∈ existing));
    destruct (decide (i ∈ (list_to_set (item_id <$> current) : gset string)));
    tauto.
Qed.

(** C4. After a run whose merged offers are not empty, the ids in the store
    are exactly the ids of the merged offers: every new offer is stored and
    no disappeared id is.  For the terms A and B, where A returns offer 1, B
    returns offers 1 and 2 and the store holds offer 3, the run finds the
    new offers 1 and 2 and the disappeared id 3, leaves the store with 1
    and 2, and hands the transport one body, the text of offers 1 and 2,
    which the transport accepts. *)
Theorem job_store_ids :
  (∀ (E : env) (terms : list string) (w : world),
     current_offers E terms w ≠ [] →
     ∃ out, (job E terms w).1 = Some out ∧
       table_ids (offers_table (job E terms w).2)
       = list_to_set (item_id <$> current_offers E terms w) ∧
       (∀ it, it ∈ new_offers out →
          item_id it ∈ r_id <$> offers_table (job E terms w).2) ∧
       (∀ i, i ∈ disappeared_offer_ids out →
          i ∉ r_id <$> offers_table (job E terms w).2))
  ∧ (∃ out w',
       job Scenario.E ["A"; "B"] Scenario.w0 = (Some out, w') ∧
       item_id <$> current_offers Scenario.E ["A"; "B"] Scenario.w0
       = ["1"; "2"] ∧
       item_id <$> new_offers out = ["1"; "2"] ∧
       disappeared_offer_ids out = {["3"]} ∧
       r_id <$> offers_table w' = ["1"; "2"] ∧
       outbox w' = [message_text (new_offers out)] ∧
       twilio Scenario.E (message_text (new_offers out)) = Sent "SM0001").
Proof.
  split.
  - intros E terms w Hne.
    pose proof (job_table_ids E terms w Hne) as Hids.
    pose proof (job_run E terms w Hne) as Hrun. cbv zeta in Hrun.
    eexists. split; [by rewrite Hrun |].
    cbn [new_offers disappeared_offer_ids].
    split_and!; [done | |].
    + intros it [_ Hit]%list_elem_of_filter.
      apply (elem_of_list_to_set (C := gset string)).
      fold (table_ids (offers_table (job E terms w).2)). rewrite Hids.
      apply elem_of_list_to_set. by apply list_elem_of_fmap_2.
    + intros i [_ Hi]%elem_of_difference Hin.
      apply (elem_of_list_to_set (C := gset string)) in Hin.
      fold (table_ids (offers_table (job E terms w).2)) in Hin.
      by rewrite Hids in Hin.
  - assert (current_offers Scenario.E ["A"; "B"] Scenario.w0 ≠ []) as Hne
      by done.
    eexists _, _. split; [apply (job_run _ _ _ Hne) |].
    cbn [new_offers disappeared_offer_ids offers_table outbox].
    split_and!; vm_compute; reflexivity.
Qed.

(** The store holds A, B and C and the search returns B, C and D: the store
    ends with B, C and D. *)
Lemma job_store_ids_witness :
  current_offers Scenario.E_bcd ["q"] Scenario.w_abc ≠ []
  ∧ table_ids (offers_table (job Scenario.E_bcd ["q"] Scenario.w_abc).2)
    = list_to_set ["B"; "C"; "D"].
Proof.
  assert (current_offers Scenario.E_bcd ["q"] Scenario.w_abc ≠ []) as Hne
    by done.
  split; [done |].
  destruct (proj1 job_store_ids Scenario.E_bcd ["q"] Scenario.w_abc Hne)
    as (out & _ & Hids & _).
  exact Hids.
Defined.

(** Every run keeps the primary key of the table. *)
Lemma job_pk_unique E terms w :
  pk_unique (offers_table w) → pk_unique (offers_table (job E terms w).2).
Proof.
  intros Hpk. destruct (current_offers E terms w) as [|it l] eqn:Hcur.
  - by rewrite job_skip.
  - rewrite job_run by (by rewrite Hcur). cbn [snd offers_table].
    by apply fold_delete_pk, fold_insert_pk.
Qed.

(** * The Offer Store *)

Lemma filter_id_absent table i :
  i ∉ r_id <$> table → filter (λ r, r_id r = i) table = [].
Proof.
  induction table as [|r table IH]; [done |].
  rewrite fmap_cons, not_elem_of_cons. intros [Hne Hnotin].
  rewrite filter_cons, decide_False by done. by apply IH.
Qed.

Lemma pk_unique_one_row table i :
  pk_unique table → i ∈ r_id <$> table →
  length (filter (λ r, r_id r = i) table) = 1.
Proof.
  unfold pk_unique. induction table as [|r table IH].
  { by intros _ ?%elem_of_nil. }
  rewrite fmap_cons, NoDup_cons, elem_of_cons. intros [Hnotin Hnd] Hin.
  rewrite filter_cons. destruct (decide (r_id r = i)) as [Heq|Hne].
  - rewrite filter_id_absent; [done | by rewrite <- Heq].
  - destruct Hin as [->|Hin]; [done | by apply IH].
Qed.

Lemma insert_or_ignore_present now it table :
  item_id it ∈ r_id <$> table → insert_or_ignore now it table = table.
Proof. intros Hin. unfold insert_or_ignore. by rewrite decide_True. Qed.

Lemma insert_or_ignore_stored now it table :
  item_id it ∈ r_id <$> insert_or_ignore now it table.
Proof.
  unfold insert_or_ignore. case_decide; [done |].
  rewrite fmap_app. apply elem_of_app. right. by left.
Qed.

(** C9. Inserting an offer whose id is stored changes nothing; so a second
    insert of an id, with whatever fields and at whatever time, leaves the
    world as the first insert left it: the table holds exactly one row for
    the id and, when the id was new, it is the row of the first insert with
    the timestamp of the first insert. *)
Theorem add_offer_to_db_idempotent (E1 E2 : env) (it1 it2 : item) (w : world) :
  pk_unique (offers_table w) →
  item_id it2 = item_id it1 →
  (add_offer_to_db E2 it2 (add_offer_to_db E1 it1 w).2).2
  = (add_offer_to_db E1 it1 w).2
  ∧ length (filter (λ r, r_id r = item_id it1)
              (offers_table
                 (add_offer_to_db E2 it2 (add_offer_to_db E1 it1 w).2).2))
    = 1
  ∧ (item_id it1 ∉ r_id <$> offers_table w →
     Row (item_id it1) (title it1) (price it1) (permalink it1)
       (current_timestamp E1 it1)
     ∈ offers_table (add_offer_to_db E2 it2 (add_offer_to_db E1 it1 w).2).2)
  ∧ (item_id it1 ∈ r_id <$> offers_table w →
     add_offer_to_db E1 it1 w = (tt, w)).
Proof.
  intros Hpk Hid.
  assert ((add_offer_to_db E2 it2 (add_offer_to_db E1 it1 w).2).2
          = (add_offer_to_db E1 it1 w).2) as Hsame.
  { unfold add_offer_to_db, set_table. cbn [snd offers_table requests outbox].
    rewrite (insert_or_ignore_present _ it2); [done |].
    rewrite Hid. apply insert_or_ignore_stored. }
  rewrite Hsame. split_and!; [done | | |].
  - apply pk_unique_one_row.
    + by apply insert_or_ignore_pk.
    + apply insert_or_ignore_stored.
  - intros Hnew. cbn. unfold insert_or_ignore. rewrite decide_False by done.
    apply elem_of_app. right. by left.
  - intros Hin. unfold add_offer_to_db, set_table.
    rewrite insert_or_ignore_present by done. by destruct w.
Qed.

(** Offer 1 is inserted as fetched from A and, an hour later, as fetched
    from B: the table has gained the row of the first insert only. *)
Lemma add_offer_to_db_idempotent_witness :
  pk_unique (offers_table Scenario.w0)
  ∧ offers_table
      (add_offer_to_db Scenario.E_later (Scenario.offer "1" "from B")
         (add_offer_to_db Scenario.E (Scenario.offer "1" "from A")
            Scenario.w0).2).2
    = offers_table Scenario.w0
      ++ [Row "1" "from A" (Int 100)
            "https://articulo.mercadolibre.com.uy/1" 1700000000].
Proof.
  assert (pk_unique (offers_table Scenario.w0)) as Hpk.
  { apply NoDup_singleton. }
  split; [done |].
  destruct (add_offer_to_db_idempotent Scenario.E Scenario.E_later
              (Scenario.offer "1" "from A") (Scenario.offer "1" "from B")
              Scenario.w0 Hpk eq_refl) as [Hsame _].
  rewrite Hsame. reflexivity.
Defined.

(** * The Notifier *)

Lemma render_from_tail opening len l :
  ∃ g, hd_error (groups_from len l) = Some g
    ∧ render_from opening (groups_from len l)
      = (opening +:+ blocks g) :: (blocks <$> tail (groups_from len l)).
Proof.
  destruct (groups_from_nonempty len l) as (g & gs & ->). by exists g.
Qed.

Lemma later_parts_contain_block offers len l :
  l ⊆ offers →
  Forall (contains_block offers) (blocks <$> tail (groups_from len l)).
Proof.
  intros Hsub. apply Forall_fmap, Forall_forall. intros g Hg.
  apply blocks_contains_block.
  - pose proof (groups_from_tail_nonempty len l) as Hne.
    by apply (proj1 (Forall_forall _ _) Hne).
  - intros it Hit. apply Hsub. rewrite <- (groups_from_concat len l).
    apply elem_of_concat. exists g. split; [done |].
    destruct (groups_from len l); [done | by right].
Qed.

(** C3, amended.  For offers whose whole text is over 1600 characters while
    no block is, the parts sent are those of a split of the offers, kept in
    their order, into consecutive groups of whole blocks, with the header
    opening the first part only; every part has at most 1600 characters;
    and no split of the offers in that order within the limit has fewer
    parts.  These are the parts the transport receives after it refused
    the whole text with an error that mentions 1600. *)
Theorem split_messages_minimal (offers : list item) :
  offers ≠ [] →
  1600 < Str.len (message_text offers) →
  Forall (λ it, Str.len (offer_text it) ≤ 1600) offers →
  (∃ groups,
     concat groups = offers ∧
     split_messages offers = render_parts groups ∧
     Forall (λ part, Str.len part ≤ 1600) (split_messages offers) ∧
     ∀ groups',
       concat groups' = offers →
       Forall (λ part, Str.len part ≤ 1600) (render_parts groups') →
       length (split_messages offers) ≤ length groups')
  ∧ ∀ E error_message,
      twilio E (message_text offers) = Failed error_message →
      Str.contains "1600" error_message = true →
      notification_bodies E offers
      = message_text offers :: split_messages offers.
Proof.
  intros Hne Hlong Hblocks. split.
  - exists (groups_from (Str.len header) offers).
    rewrite split_messages_groups. split_and!.
    + apply groups_from_concat.
    + done.
    + apply render_groups_bound; [rewrite header_len; lia | done].
    + intros groups' Hconcat Hfit. unfold render_parts.
      rewrite length_render_from.
      destruct groups' as [|g gs]; [by subst offers |].
      apply Forall_cons in Hfit as [Hg Hgs]. rewrite str_len_app in Hg.
      rewrite <- Hconcat. apply groups_from_minimal; [done |].
      by apply Forall_fmap in Hgs.
  - intros E err Hfailed Herr. unfold notification_bodies.
    rewrite send_notification_bodies. destruct offers as [|it l]; [done |].
    rewrite Hfailed, Herr. reflexivity.
Qed.

(** Three offers with blocks of 754 characters: the transport refuses the
    whole text, two parts are sent after it, and no split has fewer. *)
Lemma split_messages_minimal_witness :
  (1600 <? Str.len (message_text Scenario.three_long)) = true
  ∧ length (split_messages Scenario.three_long) = 2
  ∧ (∀ groups',
       concat groups' = Scenario.three_long →
       Forall (λ part, Str.len part ≤ 1600) (render_parts groups') →
       2 ≤ length groups')
  ∧ notification_bodies Scenario.E Scenario.three_long
    = message_text Scenario.three_long :: split_messages Scenario.three_long.
Proof.
  assert ((1600 <? Str.len (message_text Scenario.three_long)) = true)
    as Hlong by (vm_compute; reflexivity).
  assert (Forall (λ it, Str.len (offer_text it) ≤ 1600) Scenario.three_long)
    as Hblocks.
  { repeat apply Forall_cons_2; try apply Forall_nil_2;
      apply Nat.leb_le; vm_compute; reflexivity. }
  destruct (split_messages_minimal Scenario.three_long ltac:(done)
              (proj1 (Nat.ltb_lt _ _) Hlong) Hblocks)
    as [(groups & _ & _ & _ & Hmin) Hsent].
  split_and!; [done | vm_compute; reflexivity | |].
  - intros groups' Hconcat Hfit.
    change 2 with (length (split_messages Scenario.three_long)).
    by apply Hmin.
  - eapply Hsent.
    + unfold Scenario.E, Scenario.transport. cbn [twilio].
      rewrite Hlong. reflexivity.
    + vm_compute. reflexivity.
Defined.

(** C10, as the specification states it, fails: a single offer whose block
    has 1594 characters triggers the fallback, and the first part sent is
    the header line alone. *)
Lemma split_messages_header_alone :
  Scenario.one_huge ≠ []
  ∧ 1600 < Str.len (message_text Scenario.one_huge)
  ∧ ¬ Forall (contains_block Scenario.one_huge)
        (split_messages Scenario.one_huge).
Proof.
  assert (Str.len (offer_text (Scenario.long_offer "1" 1540)) = 1594)
    as Hblock by (vm_compute; reflexivity).
  split_and!; [done | |].
  - rewrite message_text_blocks, str_len_app, header_len.
    cbn [blocks foldr Scenario.one_huge]. rewrite str_len_app, Hblock. lia.
  - rewrite split_messages_groups. unfold render_parts, Scenario.one_huge.
    rewrite render_groups_seal by (rewrite header_len, Hblock; lia).
    intros [Hheader _]%Forall_cons.
    destruct Hheader as (it & before & after & Hit & Htext).
    apply list_elem_of_singleton in Hit as ->.
    apply (f_equal Str.len) in Htext.
    rewrite !str_len_app, header_len, Hblock in Htext. lia.
Qed.

(** C10, amended.  When the fallback splits the offers, every part after
    the first contains a complete offer block; the first part contains one
    when the header and the first block fit in 1600 characters together,
    and is the header line alone otherwise. *)
Theorem split_messages_block_per_part (it : item) (later : list item) :
  1600 < Str.len (message_text (it :: later)) →
  ∃ first rest,
    split_messages (it :: later) = first :: rest ∧
    Forall (contains_block (it :: later)) rest ∧
    (Str.len header + Str.len (offer_text it) ≤ 1600 →
     contains_block (it :: later) first) ∧
    (1600 < Str.len header + Str.len (offer_text it) → first = header).
Proof.
  intros _. rewrite split_messages_groups. unfold render_parts.
  assert (contains_block (it :: later) (offer_text it)) as Hown.
  { exists it, EmptyString, EmptyString. split; [by left |].
    by rewrite str_app_nil_r. }
  assert (∀ opening len,
    contains_block (it :: later) opening →
    Forall (contains_block (it :: later))
      (render_from opening (groups_from len later))) as Hrest.
  { intros opening len (it' & before & after & Hit' & ->).
    destruct (render_from_tail (before +:+ offer_text it' +:+ after)
                len later) as (g & _ & ->).
    apply Forall_cons. split.
    - exists it', before, (after +:+ blocks g). split; [done |].
      by rewrite !str_app_assoc.
    - apply later_parts_contain_block. intros x Hx. by right. }
  destruct (decide (1600 < Str.len header + Str.len (offer_text it)))
    as [Hseal|Hfit].
  - rewrite render_groups_seal by done. eexists _, _.
    split_and!; [done | by apply Hrest | lia | done].
  - rewrite render_groups_append by lia.
    destruct (render_from_tail (header +:+ offer_text it)
                (Str.len header + Str.len (offer_text it)) later)
      as (g & _ & ->).
    eexists _, _. split_and!; [done | | | lia].
    + apply later_parts_contain_block. intros x Hx. by right.
    + intros _. exists it, header, (blocks g). split; [by left |].
      by rewrite str_app_assoc.
Qed.

(** Three offers with blocks of 754 characters: both parts hold a block. *)
Lemma split_messages_block_per_part_witness :
  (1600 <? Str.len (message_text Scenario.three_long)) = true
  ∧ ∃ first rest,
      split_messages Scenario.three_long = first :: rest
      ∧ Forall (contains_block Scenario.three_long) rest
      ∧ contains_block Scenario.three_long first.
Proof.
  assert ((1600 <? Str.len (message_text Scenario.three_long)) = true)
    as Hlong by (vm_compute; reflexivity).
  split; [done |].
  destruct (split_messages_block_per_part
              (Scenario.long_offer "1" 700)
              [Scenario.long_offer "2" 700; Scenario.long_offer "3" 700]
              (proj1 (Nat.ltb_lt _ _) Hlong))
    as (first & rest & Hsplit & Hrest & Hfirst & _).
  exists first, rest. split_and!; [done | done |].
  apply Hfirst. apply Nat.leb_le. vm_compute. reflexivity.
Defined.

(** C3, as the specification states it, fails.  The offers with blocks of
    800, 1000 and 700 characters have a text over 1600 characters and no
    block over 1600, and the loop sends three parts; yet two parts meet
    every condition the claim states (each within 1600 characters, every
    block whole, the header in the first part only): the first and the
    third offer after the header, and the second offer alone.  The loop
    keeps the offers in their order and does not look for a regrouping. *)
Lemma split_messages_not_least_regrouped :
  Scenario.mixed ≠ []
  ∧ 1600 < Str.len (message_text Scenario.mixed)
  ∧ Forall (λ it, Str.len (offer_text it) ≤ 1600) Scenario.mixed
  ∧ ¬ (∀ groups',
         concat groups' ≡ₚ Scenario.mixed →
         Forall (λ part, Str.len part ≤ 1600) (render_parts groups') →
         length (split_messages Scenario.mixed) ≤ length groups').
Proof.
  split_and!.
  - done.
  - apply Nat.ltb_lt. vm_compute. reflexivity.
  - repeat apply Forall_cons_2; try apply Forall_nil_2;
      apply Nat.leb_le; vm_compute; reflexivity.
  - intros Hleast.
    specialize (Hleast
      [[Scenario.long_offer "1" 746; Scenario.long_offer "3" 646];
       [Scenario.long_offer "2" 946]]).
    assert (length (split_messages Scenario.mixed) = 3) as Hthree
      by (vm_compute; reflexivity).
    rewrite Hthree in Hleast. cbn [length] in Hleast.
    enough (3 ≤ 2) by lia. apply Hleast.
    + cbn [concat app]. unfold Scenario.mixed.
      apply perm_skip, Permutation_swap.
    + repeat apply Forall_cons_2; try apply Forall_nil_2;
        apply Nat.leb_le; vm_compute; reflexivity.
Qed.

(** * More on the Offer Store *)

Lemma delete_where_id_absent offer_id table :
  offer_id ∉ r_id <$> table → delete_where_id offer_id table = table.
Proof.
  intros Hnotin. unfold delete_where_id. apply filter_all.
  intros r Hr Heq. apply Hnotin. rewrite <- Heq.
  by apply list_elem_of_fmap_2.
Qed.

Lemma fold_delete_filter (l : list string) table :
  fold_left (λ t i, delete_where_id i t) l table
  = filter (λ r, r_id r ∉ l) table.
Proof.
  revert table. induction l as [|i l IH]; intros table; cbn [fold_left].
  - symmetry. apply filter_all. by intros r _ ?%elem_of_nil.
  - rewrite IH. unfold delete_where_id. rewrite list_filter_filter.
    apply list_filter_iff. intros r. rewrite not_elem_of_cons. tauto.
Qed.

(** X1. Round trip of the store: after an offer is inserted its id is among
    the existing ids; after the id is removed it is not; and neither
    operation changes whether any other id is stored. *)
Theorem store_round_trip (E : env) (it : item) (w : world) :
  let w1 := (add_offer_to_db E it w).2 in
  let w2 := (remove_offer_from_db (item_id it) w1).2 in
  item_id it ∈ (get_existing_offer_ids w1).1
  ∧ (item_id it ∉ (get_existing_offer_ids w2).1)
  ∧ ∀ i, i ≠ item_id it →
      (i ∈ (get_existing_offer_ids w1).1 ↔ i ∈ (get_existing_offer_ids w).1)
      ∧ (i ∈ (get_existing_offer_ids w2).1 ↔ i ∈ (get_existing_offer_ids w).1).
Proof.
  cbv zeta. unfold get_existing_offer_ids, add_offer_to_db,
    remove_offer_from_db, set_table.
  cbn [fst snd offers_table].
  fold (table_ids
          (insert_or_ignore (current_timestamp E it) it (offers_table w))).
  fold (table_ids (delete_where_id (item_id it)
          (insert_or_ignore (current_timestamp E it) it (offers_table w)))).
  fold (table_ids (offers_table w)).
  rewrite delete_where_id_ids, insert_or_ignore_ids. set_solver.
Qed.

(** X2. Removing an id that is not stored changes nothing, and removing a
    stored id takes away the rows with that id only: the other rows stay,
    in their order. *)
Theorem remove_offer_from_db_other_rows (offer_id : string) (w : world) :
  offers_table (remove_offer_from_db offer_id w).2
  = filter (λ r, r_id r ≠ offer_id) (offers_table w)
  ∧ requests (remove_offer_from_db offer_id w).2 = requests w
  ∧ outbox (remove_offer_from_db offer_id w).2 = outbox w
  ∧ (offer_id ∉ r_id <$> offers_table w →
     remove_offer_from_db offer_id w = (tt, w)).
Proof.
  split_and!; [done.. |]. intros Hnotin.
  unfold remove_offer_from_db, set_table.
  rewrite delete_where_id_absent by done. by destruct w.
Qed.

Lemma remove_offer_from_db_other_rows_witness :
  ("5" ∉ r_id <$> offers_table Examples.w34)
  ∧ remove_offer_from_db "5" Examples.w34 = (tt, Examples.w34)
  ∧ offers_table (remove_offer_from_db "3" Examples.w34).2 = [Examples.row4].
Proof.
  assert ("5" ∉ r_id <$> offers_table Examples.w34) as Hnotin.
  { intros [?|[?|[]%elem_of_nil]%elem_of_cons]%elem_of_cons; done. }
  destruct (remove_offer_from_db_other_rows "5" Examples.w34)
    as (_ & _ & _ & Hnoop).
  split_and!; [done | by apply Hnoop | reflexivity].
Defined.

(** X3. An offer that is removed and inserted again is stored as a new
    row: the old row of the id is gone, and the row now stored carries the
    fields just inserted and the timestamp of this insert. *)
Theorem reinsert_after_remove (E : env) (it : item) (w : world) :
  offers_table
    (add_offer_to_db E it (remove_offer_from_db (item_id it) w).2).2
  = filter (λ r, r_id r ≠ item_id it) (offers_table w)
    ++ [row_of (current_timestamp E it) it].
Proof.
  unfold add_offer_to_db, remove_offer_from_db, set_table.
  cbn [snd offers_table]. unfold insert_or_ignore.
  rewrite decide_False; [done |].
  intros (r & Hid & [Hne _]%list_elem_of_filter)%list_elem_of_fmap. done.
Qed.

(** X4. Inserting an offer whose id is not stored and removing that id
    again gives back the world as it was. *)
Theorem remove_after_insert (E : env) (it : item) (w : world) :
  item_id it ∉ r_id <$> offers_table w →
  remove_offer_from_db (item_id it) (add_offer_to_db E it w).2 = (tt, w).
Proof.
  intros Hnew. unfold add_offer_to_db, remove_offer_from_db, set_table.
  cbn [snd offers_table requests outbox]. unfold insert_or_ignore.
  rewrite decide_False by done. unfold delete_where_id.
  rewrite filter_app, filter_cons_False, filter_nil, app_nil_r
    by (simpl; by intros []).
  fold (delete_where_id (item_id it) (offers_table w)).
  rewrite delete_where_id_absent by done. by destruct w.
Qed.

Lemma remove_after_insert_witness :
  (item_id (Scenario.offer "1" "from A") ∉ r_id <$> offers_table Examples.w34)
  ∧ remove_offer_from_db "1"
      (add_offer_to_db Scenario.E (Scenario.offer "1" "from A")
         Examples.w34).2
    = (tt, Examples.w34).
Proof.
  assert (item_id (Scenario.offer "1" "from A")
          ∉ r_id <$> offers_table Examples.w34) as Hnew.
  { intros [?|[?|[]%elem_of_nil]%elem_of_cons]%elem_of_cons; done. }
  split; [done |].
  apply (remove_after_insert Scenario.E (Scenario.offer "1" "from A")
           Examples.w34 Hnew).
Defined.

(** X5. The order in which ids are removed does not matter: removing the
    ids of a list one by one, in any order, leaves the rows whose id is not
    in the list.  So a run does not depend on the order in which Python
    iterates over the set of disappeared ids. *)
Theorem remove_order_irrelevant (l1 l2 : list string) (w : world) :
  l1 ≡ₚ l2 →
  for_each l1 remove_offer_from_db w = for_each l2 remove_offer_from_db w
  ∧ offers_table (for_each l1 remove_offer_from_db w).2
    = filter (λ r, r_id r ∉ l1) (offers_table w).
Proof.
  intros Hperm. rewrite !for_each_remove_offer. unfold set_table.
  cbn [snd offers_table]. rewrite !fold_delete_filter. split; [| done].
  do 2 f_equal. apply list_filter_iff. intros r. by rewrite Hperm.
Qed.

Lemma remove_order_irrelevant_witness :
  ["3"; "4"] ≡ₚ ["4"; "3"]
  ∧ for_each ["3"; "4"] remove_offer_from_db Examples.w34
    = for_each ["4"; "3"] remove_offer_from_db Examples.w34.
Proof.
  assert (["3"; "4"] ≡ₚ ["4"; "3"]) as Hperm by apply Permutation_swap.
  split; [done |].
  apply (remove_order_irrelevant ["3"; "4"] ["4"; "3"] Examples.w34 Hperm).
Defined.

(** * More on the Reconciler *)

Lemma fold_insert_fresh (now : item → Z) l table :
  NoDup (item_id <$> l) →
  (∀ it, it ∈ l → item_id it ∉ r_id <$> table) →
  fold_left (λ t it, insert_or_ignore (now it) it t) l table
  = table ++ ((λ it, row_of (now it) it) <$> l).
Proof.
  revert table. induction l as [|it l IH]; intros table Hnd Hfresh.
  { cbn. by rewrite app_nil_r. }
  rewrite fmap_cons, NoDup_cons in Hnd. destruct Hnd as [Hit Hnd].
  cbn [fold_left]. unfold insert_or_ignore at 2.
  rewrite decide_False by (apply Hfresh; by left).
  rewrite IH; [by rewrite <- app_assoc | done |].
  intros it' Hit'. rewrite fmap_app, elem_of_app. intros [Hin|Hin].
  - by apply (Hfresh it'); [right |].
  - apply list_elem_of_singleton in Hin. simpl in Hin. apply Hit.
    rewrite <- Hin. by apply list_elem_of_fmap_2.
Qed.

Lemma NoDup_fmap_eq {A B} (f : A → B) (l : list A) x y :
  NoDup (f <$> l) → x ∈ l → y ∈ l → f x = f y → x = y.
Proof.
  induction l as [|z l IH]; [by intros _ ?%elem_of_nil |].
  rewrite fmap_cons, NoDup_cons, !elem_of_cons.
  intros [Hz Hnd] [->|Hx] [->|Hy] Heq; [done | | | by apply IH].
  - exfalso. apply Hz. rewrite Heq. by apply list_elem_of_fmap_2.
  - exfalso. apply Hz. rewrite <- Heq. by apply list_elem_of_fmap_2.
Qed.

(** The table a run leaves: the stored rows whose id is still current, as
    they were, then one row per new offer. *)
Lemma job_table_rows E terms w :
  current_offers E terms w ≠ [] →
  offers_table (job E terms w).2
  = filter (λ r, r_id r ∈ item_id <$> current_offers E terms w)
      (offers_table w)
    ++ (stored_row E
          <$> filter (λ it, item_id it ∉ r_id <$> offers_table w)
                (current_offers E terms w)).
Proof.
  intros Hne. rewrite (job_run E terms w Hne). cbn [snd offers_table].
  set (current := current_offers E terms w).
  set (table := offers_table w).
  assert (filter (λ it, item_id it ∉ table_ids table) current
          = filter (λ it, item_id it ∉ r_id <$> table) current) as ->.
  { apply list_filter_iff. intros it. unfold table_ids.
    by rewrite elem_of_list_to_set. }
  rewrite fold_insert_fresh.
  - rewrite fold_delete_filter, filter_app. f_equal.
    + apply filter_ext_in. intros r Hr.
      rewrite elem_of_elements, elem_of_difference, elem_of_list_to_set.
      unfold table_ids. rewrite elem_of_list_to_set.
      assert (r_id r ∈ r_id <$> table) by (by apply list_elem_of_fmap_2).
      destruct (decide (r_id r ∈ item_id <$> current)); tauto.
    + apply filter_all. intros r (it & -> & [_ Hit]%list_elem_of_filter)
        %list_elem_of_fmap.
      rewrite elem_of_elements, elem_of_difference, elem_of_list_to_set.
      intros [_ Hnot]. apply Hnot. simpl. by apply list_elem_of_fmap_2.
  - apply (sublist_NoDup _ (item_id <$> current)).
    + apply current_offers_NoDup.
    + apply fmap_sublist, sublist_filter.
  - by intros it [Hit _]%list_elem_of_filter.
Qed.

(** X6. Every run keeps the primary key of the table: if no two rows share
    an id before [job], no two rows share an id after it. *)
Theorem job_keeps_primary_key (E : env) (terms : list string) (w : world) :
  pk_unique (offers_table w) → pk_unique (offers_table (job E terms w).2).
Proof. apply job_pk_unique. Qed.

Lemma job_keeps_primary_key_witness :
  pk_unique (offers_table Examples.w34)
  ∧ pk_unique
      (offers_table (job Scenario.E ["A"; "B"] Examples.w34).2).
Proof.
  assert (pk_unique (offers_table Examples.w34)) as Hpk.
  { apply NoDup_cons. split; [| apply NoDup_singleton].
    by intros ?%list_elem_of_singleton. }
  split; [done |].
  apply (job_keeps_primary_key Scenario.E ["A"; "B"] Examples.w34 Hpk).
Defined.

(** X7. After a run whose merged offers are not empty the table consists of
    the stored rows whose id was fetched again, unchanged and in their
    order, followed by one row per new offer, in merged order, with the
    fetched fields and the clock as the INSERT of that offer read it. *)
Theorem job_table (E : env) (terms : list string) (w : world) :
  current_offers E terms w ≠ [] →
  ∃ out, (job E terms w).1 = Some out ∧
    offers_table (job E terms w).2
    = filter (λ r, r_id r ∈ item_id <$> current_offers E terms w)
        (offers_table w)
      ++ (stored_row E <$> new_offers out).
Proof.
  intros Hne. pose proof (job_run E terms w Hne) as Hrun. cbv zeta in Hrun.
  eexists. split; [by rewrite Hrun |]. cbn [new_offers].
  rewrite job_table_rows by done.
  do 2 f_equal. apply list_filter_iff. intros it. unfold table_ids.
  by rewrite elem_of_list_to_set.
Qed.

(** The store holds A, B and C and the search returns B, C and D: the rows
    of B and C stay as they were and a row for D follows them. *)
Lemma job_table_witness :
  current_offers Scenario.E_bcd ["q"] Scenario.w_abc ≠ []
  ∧ offers_table (job Scenario.E_bcd ["q"] Scenario.w_abc).2
    = [Row "B" "b" (Int 2) "https://x/B" 1600000000;
       Row "C" "c" (Int 3) "https://x/C" 1600000000;
       row_of 1700000000 (Scenario.offer "D" "d")].
Proof.
  assert (current_offers Scenario.E_bcd ["q"] Scenario.w_abc ≠ []) as Hne
    by done.
  split; [done |].
  destruct (job_table Scenario.E_bcd ["q"] Scenario.w_abc Hne)
    as (out & Hout & Htable).
  rewrite Htable.
  assert (new_offers out = [Scenario.offer "D" "d"]) as ->.
  { rewrite (job_run _ _ _ Hne) in Hout. cbn [fst] in Hout.
    by injection Hout as <-. }
  reflexivity.
Defined.

(** X8. Offers are never updated in place: a stored row whose id is fetched
    again stays as it is, with its old fields and timestamp, whatever the
    fetched record says; with the primary key, it is the only row of that
    id after the run. *)
Theorem job_keeps_stored_rows (E : env) (terms : list string) (w : world)
    (r : row) :
  current_offers E terms w ≠ [] →
  r ∈ offers_table w →
  r_id r ∈ item_id <$> current_offers E terms w →
  r ∈ offers_table (job E terms w).2
  ∧ (pk_unique (offers_table w) →
     ∀ r', r' ∈ offers_table (job E terms w).2 → r_id r' = r_id r → r' = r).
Proof.
  intros Hne Hr Hcur.
  assert (r ∈ offers_table (job E terms w).2) as Hkept.
  { rewrite job_table_rows by done. apply elem_of_app. left.
    by apply list_elem_of_filter. }
  split; [done |]. intros Hpk r' Hr' Hid.
  by apply (NoDup_fmap_eq r_id (offers_table (job E terms w).2));
    [apply job_pk_unique | ..].
Qed.

Lemma job_keeps_stored_rows_witness :
  current_offers Examples.E_offer3 ["q"] Examples.w34 = [Examples.offer3]
  ∧ Examples.row3 ∈ offers_table (job Examples.E_offer3 ["q"] Examples.w34).2.
Proof.
  split; [reflexivity |].
  apply (job_keeps_stored_rows Examples.E_offer3 ["q"] Examples.w34
           Examples.row3).
  - done.
  - by left.
  - by left.
Defined.

Lemma current_offers_world E terms w w' :
  current_offers E terms w = current_offers E terms w'.
Proof. by rewrite !current_offers_merge. Qed.

(** X9. A second run that gets the same answers from the search finds
    nothing new and nothing disappeared: it leaves the table as the first
    run left it and hands nothing to the transport. *)
Theorem job_twice (E : env) (terms : list string) (w : world) :
  current_offers E terms w ≠ [] →
  job E terms (job E terms w).2
  = (Some (Outcome [] ∅),
     add_requests (concat (fetch_log E <$> terms)) (job E terms w).2).
Proof.
  intros Hne. set (w1 := (job E terms w).2).
  assert (current_offers E terms w1 ≠ []) as Hne1
    by by rewrite (current_offers_world E terms w1 w).
  rewrite (job_run E terms w1 Hne1).
  assert (table_ids (offers_table w1)
          = list_to_set (item_id <$> current_offers E terms w1)) as Hids.
  { rewrite (current_offers_world E terms w1 w). by apply job_table_ids. }
  rewrite Hids.
  assert (filter
            (λ it, item_id it
                   ∉ (list_to_set (item_id <$> current_offers E terms w1)
                      : gset string))
            (current_offers E terms w1) = []) as ->.
  { apply filter_none. intros it Hit Hnot.
    apply Hnot, elem_of_list_to_set. by apply list_elem_of_fmap_2. }
  rewrite difference_diag_L, elements_empty. cbn [fold_left].
  unfold add_requests, notification_bodies. cbn. by rewrite app_nil_r.
Qed.

Lemma job_twice_witness :
  current_offers Scenario.E ["A"; "B"] Scenario.w0 ≠ []
  ∧ offers_table
      (job Scenario.E ["A"; "B"]
         (job Scenario.E ["A"; "B"] Scenario.w0).2).2
    = offers_table (job Scenario.E ["A"; "B"] Scenario.w0).2
  ∧ outbox
      (job Scenario.E ["A"; "B"]
         (job Scenario.E ["A"; "B"] Scenario.w0).2).2
    = outbox (job Scenario.E ["A"; "B"] Scenario.w0).2.
Proof.
  assert (current_offers Scenario.E ["A"; "B"] Scenario.w0 ≠ []) as Hne
    by done.
  split; [done |].
  rewrite (job_twice Scenario.E ["A"; "B"] Scenario.w0 Hne). done.
Defined.

(** X10. A run in which every merged offer is already stored hands nothing
    to the transport; it still removes the rows whose id was not fetched. *)
Theorem job_nothing_new (E : env) (terms : list string) (w : world) :
  current_offers E terms w ≠ [] →
  (∀ it, it ∈ current_offers E terms w →
     item_id it ∈ r_id <$> offers_table w) →
  outbox (job E terms w).2 = outbox w
  ∧ offers_table (job E terms w).2
    = filter (λ r, r_id r ∈ item_id <$> current_offers E terms w)
        (offers_table w)
  ∧ ∃ out, (job E terms w).1 = Some out ∧ new_offers out = [].
Proof.
  intros Hne Hstored.
  assert (filter (λ it, item_id it ∉ table_ids (offers_table w))
            (current_offers E terms w) = []) as Hnew.
  { apply filter_none. intros it Hit Hnot.
    apply Hnot, elem_of_list_to_set. by apply Hstored. }
  split_and!.
  - rewrite (job_run E terms w Hne). cbn [snd outbox]. rewrite Hnew.
    unfold notification_bodies. cbn. by rewrite app_nil_r.
  - rewrite job_table_rows by done.
    rewrite (filter_none (λ it, item_id it ∉ r_id <$> offers_table w)).
    + cbn. by rewrite app_nil_r.
    + intros it Hit Hnot. by apply Hnot, Hstored.
  - rewrite (job_run E terms w Hne). eexists. split; [done |]. done.
Qed.

Lemma job_nothing_new_witness :
  current_offers Examples.E_offer3 ["q"] Examples.w34 ≠ []
  ∧ outbox (job Examples.E_offer3 ["q"] Examples.w34).2 = []
  ∧ offers_table (job Examples.E_offer3 ["q"] Examples.w34).2
    = [Examples.row3].
Proof.
  assert (current_offers Examples.E_offer3 ["q"] Examples.w34 ≠ []) as Hne
    by done.
  assert (∀ it, it ∈ current_offers Examples.E_offer3 ["q"] Examples.w34 →
            item_id it ∈ r_id <$> offers_table Examples.w34) as Hstored.
  { intros it Hit.
    change (current_offers Examples.E_offer3 ["q"] Examples.w34)
      with [Examples.offer3] in Hit.
    apply list_elem_of_singleton in Hit as ->. by left. }
  destruct (job_nothing_new Examples.E_offer3 ["q"] Examples.w34 Hne Hstored)
    as (Hout & Htable & _).
  split_and!; [done | done |]. rewrite Htable. reflexivity.
Defined.

(** X11. A process that starts on a database without the table finds every
    merged offer new and none disappeared: the first run stores one row per
    merged offer, in merged order, each with the fetched fields and the
    clock as its own INSERT read it, and the first body it hands to the
    transport is the text of all of them. *)
Theorem main_start_fresh (E : env) (terms : list string) :
  current_offers E terms empty_world ≠ [] →
  main_start E terms None
  = (Some (Outcome (current_offers E terms empty_world) ∅),
     World
       (stored_row E <$> current_offers E terms empty_world)
       (concat (fetch_log E <$> terms))
       (notification_bodies E (current_offers E terms empty_world)))
  ∧ ∃ parts,
      notification_bodies E (current_offers E terms empty_world)
      = message_text (current_offers E terms empty_world) :: parts.
Proof.
  intros Hne. split.
  - unfold main_start, init_db. fold empty_world.
    rewrite (job_run E terms empty_world Hne).
    cbn [offers_table requests outbox empty_world app].
    assert (table_ids [] = (∅ : gset string)) as -> by done.
    rewrite (filter_all (λ it, item_id it ∉ (∅ : gset string)))
      by (intros it _; apply not_elem_of_empty).
    rewrite difference_disjoint_L by apply disjoint_empty_l.
    rewrite elements_empty. cbn [fold_left].
    rewrite fold_insert_fresh; [done | apply current_offers_NoDup |].
    by intros it _ ?%elem_of_nil.
  - unfold notification_bodies. rewrite send_notification_bodies.
    destruct (current_offers E terms empty_world) as [|it l]; [done |].
    cbn [snd outbox add_bodies empty_world app]. by eexists.
Qed.

Lemma main_start_fresh_witness :
  current_offers Scenario.E ["A"; "B"] empty_world ≠ []
  ∧ offers_table (main_start Scenario.E ["A"; "B"] None).2
    = [row_of 1700000000 (Scenario.offer "1" "from B");
       row_of 1700000001 (Scenario.offer "2" "from B")].
Proof.
  assert (current_offers Scenario.E ["A"; "B"] empty_world ≠ []) as Hne
    by done.
  split; [done |].
  rewrite (proj1 (main_start_fresh Scenario.E ["A"; "B"] Hne)). reflexivity.
Defined.

(** X12. A run fetches the terms one after the other in the configured
    order: its requests are those of the first term, then those of the
    second, and so on, each term with the offsets 0, 50, ... of between one
    and 21 pages, whatever the pages hold; so a run issues at least one and
    at most 21 requests per term. *)
Theorem job_requests_in_order (E : env) (terms : list string) (w : world) :
  ∃ logs,
    requests (job E terms w).2 = requests w ++ concat logs
    ∧ Forall2 (λ q log, ∃ n, 1 ≤ n ≤ 21 ∧ log = page_requests q n)
        terms logs
    ∧ length terms ≤ length (concat logs) ≤ 21 * length terms.
Proof.
  exists (fetch_log E <$> terms). split; [apply job_requests |].
  induction terms as [|q terms [IH1 IH2]].
  { split; [constructor | simpl; lia]. }
  destruct (fetched_pages E q) as (n & Hn & _ & Hlog).
  rewrite fmap_cons. split.
  - constructor; [by exists n | done].
  - cbn [concat]. rewrite length_app, Hlog. unfold page_requests.
    rewrite length_fmap, length_seq. simpl. lia.
Qed.

Lemma merged_ids E terms w i :
  i ∈ item_id <$> current_offers E terms w
  ↔ ∃ q, q ∈ terms ∧ i ∈ item_id <$> fetched E q.
Proof.
  rewrite current_offers_merge, keyed_values_ids
    by apply current_offers_keyed.
  assert (i ∈ Dict.keys
            (merge_offers Dict.empty (concat (fetched E <$> terms)))
          ↔ i ∈ item_id <$> concat (fetched E <$> terms)) as ->.
  { pose proof (dict_get_None i
      (merge_offers Dict.empty (concat (fetched E <$> terms)))) as Hget.
    rewrite merge_offers_get in Hget.
    pose proof (last_with_id_None i (concat (fetched E <$> terms))) as Hlast.
    assert (match last_with_id i (concat (fetched E <$> terms)) with
            | Some r => Some r
            | None => Dict.get i Dict.empty
            end = None
            ↔ last_with_id i (concat (fetched E <$> terms)) = None) as Hnone
      by (by destruct (last_with_id i _)).
    destruct (decide (i ∈ Dict.keys
      (merge_offers Dict.empty (concat (fetched E <$> terms)))));
      destruct (decide (i ∈ item_id <$> concat (fetched E <$> terms)));
      tauto. }
  rewrite list_elem_of_fmap. split.
  - intros (it & -> & Hit). apply elem_of_concat in Hit as (l & Hit & Hl).
    apply list_elem_of_fmap in Hl as (q & -> & Hq).
    exists q. split; [done | by apply list_elem_of_fmap_2].
  - intros (q & Hq & (it & -> & Hit)%list_elem_of_fmap).
    exists it. split; [done |]. apply elem_of_concat.
    exists (fetched E q). split; [done | by apply list_elem_of_fmap_2].
Qed.

(** X13. Merging loses no id and invents none: an id is among the merged
    offers exactly when some term returned an offer with that id. *)
Theorem current_offers_ids (E : env) (terms : list string) (w : world)
    (i : string) :
  i ∈ item_id <$> current_offers E terms w
  ↔ ∃ q, q ∈ terms ∧ i ∈ item_id <$> fetched E q.
Proof. apply merged_ids. Qed.

Lemma fetch_pages_same_search E E' q offsets d w :
  http_get E = http_get E' →
  fetch_pages E q offsets d w = fetch_pages E' q offsets d w.
Proof.
  intros Hget. revert d w. induction offsets as [|o later IH]; intros d w.
  { done. }
  rewrite !fetch_pages_cons, <- Hget.
  destruct (http_get E q o) as [|[|r rs]]; try done.
  destruct (length (r :: rs) <? 50); [done | apply IH].
Qed.

Lemma fetch_offers_same_search E E' q w :
  http_get E = http_get E' → fetch_offers E q w = fetch_offers E' q w.
Proof.
  intros Hget. unfold fetch_offers, bind.
  by rewrite (fetch_pages_same_search E E').
Qed.

(** X14. The store never depends on the transport: with the same search
    answers and clock, a run leaves the same table, finds the same outcome
    and issues the same requests whatever the transport answers, also when
    it refuses every message. *)
Theorem job_store_whatever_transport (E : env) (terms : list string)
    (w : world) (transport : string → send_result) :
  let E' := Env (http_get E) transport (current_timestamp E) in
  (job E' terms w).1 = (job E terms w).1
  ∧ offers_table (job E' terms w).2 = offers_table (job E terms w).2
  ∧ requests (job E' terms w).2 = requests (job E terms w).2.
Proof.
  intros E'.
  assert (∀ q, fetched E' q = fetched E q) as Hfetched.
  { intros q. unfold fetched.
    by rewrite (fetch_offers_same_search E' E). }
  assert (fetch_log E' <$> terms = fetch_log E <$> terms) as Hlog.
  { apply list_fmap_ext. intros _ q _. unfold fetch_log.
    by rewrite (fetch_offers_same_search E' E). }
  assert (current_offers E' terms w = current_offers E terms w) as Hcur.
  { rewrite !current_offers_merge. do 3 f_equal. }
  destruct (decide (current_offers E terms w = [])) as [Hnil|Hne].
  - rewrite !job_skip by congruence. by rewrite Hlog.
  - rewrite (job_run E terms w Hne), (job_run E' terms w) by congruence.
    cbn [fst snd offers_table requests]. by rewrite Hcur, Hlog.
Qed.

(** * More on the Search Client *)

Lemma dict_store_fresh {V} k (v : V) d :
  Dict.contains k d = false → Dict.store k v d = d ++ [(k, v)].
Proof.
  induction d as [|[k' v'] d IH]; simpl; [done |].
  case_decide; [done |]. intros Hc. by rewrite IH.
Qed.

(** The dictionary grows at its end, by offers taken in their order. *)
Lemma fold_add_unseen_values l d :
  ∃ l', l' `sublist_of` l
    ∧ Dict.values (fold_left add_unseen l d) = Dict.values d ++ l'.
Proof.
  revert d. induction l as [|it l IH]; intros d.
  { exists []. split; [done |]. cbn. by rewrite app_nil_r. }
  cbn [fold_left]. destruct (IH (add_unseen d it)) as (l' & Hsub & ->).
  unfold add_unseen. destruct (Dict.contains (item_id it) d) eqn:Hc.
  - exists l'. split; [by apply sublist_cons | done].
  - exists (it :: l'). split; [by apply sublist_skip |].
    rewrite dict_store_fresh by done. unfold Dict.values.
    by rewrite fmap_app, <- app_assoc.
Qed.

(** X15. [fetch_offers] returns the offers in the order in which their ids
    first appear in the pages it read: the result is a subsequence of the
    offers read, and it has an offer for every id read and for no other. *)
Theorem fetch_offers_order (E : env) (query : string) (w : world) :
  ∃ n, 1 ≤ n ≤ 21 ∧
    requests (fetch_offers E query w).2
    = requests w ++ page_requests query n ∧
    (fetch_offers E query w).1 `sublist_of` pages_read E query n ∧
    ∀ i, i ∈ item_id <$> (fetch_offers E query w).1
         ↔ i ∈ item_id <$> pages_read E query n.
Proof.
  destruct (fetch_offers_pages E query w) as (n & Hn & -> & _).
  exists n. split_and!; [lia | lia | done | |].
  - cbn [fst]. unfold accumulate.
    destruct (fold_add_unseen_values (pages_read E query n) Dict.empty)
      as (l' & Hsub & ->). done.
  - intros i. cbn [fst].
    pose proof (accumulate_first_seen (pages_read E query n) i) as Hfirst.
    pose proof (first_with_id_None i
      (Dict.values (accumulate (pages_read E query n)))) as Hres.
    pose proof (first_with_id_None i (pages_read E query n)) as Hseen.
    rewrite Hfirst in Hres.
    destruct (decide (i ∈ item_id
      <$> Dict.values (accumulate (pages_read E query n))));
      destruct (decide (i ∈ item_id <$> pages_read E query n)); tauto.
Qed.

(** X16. When the first page of a term fails or holds no result (or has no
    [results] key), [fetch_offers] returns the empty list after that one
    request. *)
Theorem fetch_offers_nothing (E : env) (query : string) (w : world) :
  http_get E query 0%Z = PageError ∨ http_get E query 0%Z = PageResults [] →
  fetch_offers E query w = ([], add_requests [(query, 0%Z)] w).
Proof.
  intros Hfirst.
  destruct (fetch_offers_pages E query w) as (n & Hn & -> & Hfull & _).
  assert (n = 1) as ->.
  { destruct (decide (1 < n)) as [Hlt|]; [| lia].
    specialize (Hfull 0 Hlt). change (50 * Z.of_nat 0)%Z with 0%Z in Hfull.
    destruct Hfirst as [Hp|Hp]; rewrite Hp in Hfull; simpl in Hfull;
      [done | lia]. }
  unfold pages_read. cbn [seq fmap list_fmap concat].
  change (50 * Z.of_nat 0)%Z with 0%Z.
  by destruct Hfirst as [->| ->].
Qed.

Lemma fetch_offers_nothing_witness :
  fetch_offers Examples.E_empty "RTX Usado" empty_world
  = ([], World [] [("RTX Usado", 0%Z)] [])
  ∧ fetch_offers Scenario.E_outage "RTX Usado" empty_world
    = ([], World [] [("RTX Usado", 0%Z)] []).
Proof.
  split.
  - apply (fetch_offers_nothing Examples.E_empty "RTX Usado" empty_world).
    by right.
  - apply (fetch_offers_nothing Scenario.E_outage "RTX Usado" empty_world).
    by left.
Defined.

(** * More on the Notifier *)

Lemma blocks_app g1 g2 : blocks (g1 ++ g2) = blocks g1 +:+ blocks g2.
Proof.
  induction g1 as [|it g1 IH]; [done |].
  cbn [app blocks foldr]. fold (blocks (g1 ++ g2)). fold (blocks g1).
  by rewrite IH, str_app_assoc.
Qed.

Lemma blocks_concat gs : blocks (concat gs) = str_concat (blocks <$> gs).
Proof.
  induction gs as [|g gs IH]; [done |].
  cbn [concat]. rewrite blocks_app, IH. done.
Qed.

Lemma str_concat_render_from opening groups :
  groups ≠ [] →
  str_concat (render_from opening groups) = opening +:+ blocks (concat groups).
Proof.
  destruct groups as [|g gs]; [done |]. intros _.
  cbn [render_from str_concat foldr concat]. fold (str_concat (blocks <$> gs)).
  by rewrite blocks_app, blocks_concat, str_app_assoc.
Qed.

(** X17. The fallback loses nothing and repeats nothing: the parts it sends,
    put one after the other, are the whole text that was refused. *)
Theorem split_messages_concat (offers : list item) :
  str_concat (split_messages offers) = message_text offers.
Proof.
  rewrite split_messages_groups, message_text_blocks. unfold render_parts.
  destruct (groups_from_nonempty (Str.len header) offers) as (g & gs & Hg).
  rewrite str_concat_render_from by (by rewrite Hg).
  by rewrite groups_from_concat.
Qed.

Lemma groups_from_all_fit len l :
  len + Str.len (blocks l) ≤ 1600 → groups_from len l = [l].
Proof.
  revert len. induction l as [|it l IH]; intros len; [done |].
  cbn [blocks foldr]. fold (blocks l). rewrite str_len_app. intros Hfit.
  cbn [groups_from].
  destruct (Nat.ltb_spec 1600 (len + Str.len (offer_text it))); [lia |].
  rewrite IH by lia. done.
Qed.

(** X18. When the whole text is within 1600 characters the fallback forms
    one part, the whole text.  So if the transport fails with an error
    that mentions 1600 for another reason, [send_notification] hands it the
    same text a second time. *)
Theorem split_messages_short (offers : list item) :
  Str.len (message_text offers) ≤ 1600 →
  split_messages offers = [message_text offers]
  ∧ ∀ E error_message,
      offers ≠ [] →
      twilio E (message_text offers) = Failed error_message →
      Str.contains "1600" error_message = true →
      notification_bodies E offers = [message_text offers; message_text offers].
Proof.
  rewrite message_text_blocks, str_len_app. intros Hfit.
  assert (split_messages offers = [header +:+ blocks offers]) as Hone.
  { rewrite split_messages_groups, groups_from_all_fit by done. done. }
  split; [done |]. intros E err Hne Hfailed Herr.
  unfold notification_bodies. rewrite send_notification_bodies.
  destruct offers as [|it l]; [done |].
  rewrite message_text_blocks, Hfailed, Herr, Hone. done.
Qed.

Lemma split_messages_short_witness :
  (Str.len (message_text Examples.two_short) <=? 1600) = true
  ∧ outbox (send_notification Examples.E_always_1600 Examples.two_short
              empty_world).2
    = [message_text Examples.two_short; message_text Examples.two_short].
Proof.
  assert ((Str.len (message_text Examples.two_short) <=? 1600) = true)
    as Hfit by (vm_compute; reflexivity).
  split; [done |].
  destruct (split_messages_short Examples.two_short
              (proj1 (Nat.leb_le _ _) Hfit)) as [_ Hsent].
  apply (Hsent Examples.E_always_1600 "Unable to reach +5981600");
    [done | reflexivity | vm_compute; reflexivity].
Defined.

(** A part is within the limit, or it is one offer block that is over the
    limit by itself. *)
Lemma render_groups_isolate offers l opening :
  l ⊆ offers →
  (Str.len opening ≤ 1600
   ∨ ∃ it, it ∈ offers ∧ opening = offer_text it) →
  Forall (λ part, Str.len part ≤ 1600
                  ∨ ∃ it, it ∈ offers ∧ part = offer_text it)
    (render_from opening (groups_from (Str.len opening) l)).
Proof.
  revert opening. induction l as [|it l IH]; intros opening Hsub Hopen.
  { rewrite render_groups_nil. by apply Forall_singleton. }
  assert (it ∈ offers) as Hit by (apply Hsub; by left).
  assert (l ⊆ offers) as Hl by (intros x Hx; apply Hsub; by right).
  destruct (decide (1600 < Str.len opening + Str.len (offer_text it))).
  - rewrite render_groups_seal by done. apply Forall_cons. split; [done |].
    apply IH; [done |]. right. by exists it.
  - rewrite render_groups_append by lia. rewrite <- str_len_app.
    apply IH; [done |]. left. rewrite str_len_app. lia.
Qed.

(** X19. An offer whose block is over the limit by itself does not drag
    other offers along: every part the fallback forms is at most 1600
    characters long, or it is exactly one offer block. *)
Theorem split_messages_isolates_oversize (offers : list item) :
  Forall (λ part, Str.len part ≤ 1600
                  ∨ ∃ it, it ∈ offers ∧ part = offer_text it)
    (split_messages offers).
Proof.
  rewrite split_messages_groups. unfold render_parts.
  apply render_groups_isolate; [done |]. left. rewrite header_len. lia.
Qed.

Lemma groups_from_length_bound len l :
  length (groups_from len l) ≤ S (length l).
Proof.
  revert len. induction l as [|it l IH]; intros len; [done |].
  rewrite groups_from_length_cons. cbn [length].
  destruct (1600 <? len + Str.len (offer_text it)).
  - specialize (IH (Str.len (offer_text it))). lia.
  - specialize (IH (len + Str.len (offer_text it))). lia.
Qed.

(** X20. [send_notification] calls the transport at most two times more
    than there are new offers: once with the whole text and, in the
    fallback, once per part, and there is at most one part more than there
    are offers.  It touches neither the table nor the request log. *)
Theorem send_notification_calls (E : env) (offers : list item) (w : world) :
  ∃ bodies,
    send_notification E offers w
    = (tt, World (offers_table w) (requests w) (outbox w ++ bodies))
    ∧ length bodies ≤ length offers + 2
    ∧ length (split_messages offers) ≤ length offers + 1.
Proof.
  assert (length (split_messages offers) ≤ length offers + 1) as Hparts.
  { rewrite split_messages_groups. unfold render_parts.
    rewrite length_render_from.
    pose proof (groups_from_length_bound (Str.len header) offers). lia. }
  eexists. split; [apply send_notification_bodies |]. split; [| done].
  destruct offers as [|it l]; [simpl; lia |].
  destruct (twilio E (message_text (it :: l))) as [sid|err];
    [simpl; lia |].
  destruct (Str.contains "1600" err); cbn [length] in *; lia.
Qed.

(** X21. Without new offers [send_notification] does nothing.  With new
    offers, when the transport accepts the text, or refuses it with an error
    that does not mention 1600, the whole text is the only body handed to
    it: nothing is sent again. *)
Theorem send_notification_once :
  (∀ E w, send_notification E [] w = (tt, w))
  ∧ (∀ E offers w,
       offers ≠ [] →
       match twilio E (message_text offers) with
       | Sent _ => True
       | Failed error_message => Str.contains "1600" error_message = false
       end →
       send_notification E offers w
       = (tt, add_bodies [message_text offers] w)).
Proof.
  split; [done |]. intros E offers w Hne Hanswer.
  rewrite send_notification_bodies. destruct offers as [|it l]; [done |].
  destruct (twilio E (message_text (it :: l))) as [sid|err]; [done |].
  by rewrite Hanswer.
Qed.

Lemma send_notification_once_witness :
  Examples.two_short ≠ []
  ∧ outbox (send_notification Examples.E_unreachable Examples.two_short
              empty_world).2
    = [message_text Examples.two_short]
  ∧ outbox (send_notification Scenario.E Examples.two_short empty_world).2
    = [message_text Examples.two_short].
Proof.
  assert (Examples.two_short ≠ []) as Hne by done.
  split_and!; [done | |].
  - rewrite (proj2 send_notification_once Examples.E_unreachable
               Examples.two_short empty_world Hne); [done |].
    vm_compute. reflexivity.
  - rewrite (proj2 send_notification_once Scenario.E
               Examples.two_short empty_world Hne); [done |].
    vm_compute. exact I.
Defined.

(** * A page that fails *)

(** The values of the dictionary of [fetch_offers] are the offers met, each
    id with its first record only. *)
Lemma fold_add_unseen_first l d :
  Dict.values (fold_left add_unseen l d)
  = Dict.values d
    ++ filter (λ it, item_id it ∉ Dict.keys d) (first_occurrences l).
Proof.
  revert d. induction l as [|it l IH]; intros d.
  { cbn. by rewrite app_nil_r. }
  cbn [fold_left first_occurrences]. rewrite IH. unfold add_unseen.
  destruct (Dict.contains (item_id it) d) eqn:Hc.
  - apply dict_contains_keys in Hc.
    rewrite filter_cons_False by (by intros Hnot).
    rewrite list_filter_filter. f_equal. apply list_filter_iff.
    intros x. split; [| tauto]. intros Hx. split; [done |]. congruence.
  - assert (item_id it ∉ Dict.keys d) as Hnew.
    { rewrite <- dict_contains_keys. congruence. }
    rewrite dict_store_fresh by done. unfold Dict.values, Dict.keys.
    rewrite !fmap_app, <- app_assoc. f_equal.
    rewrite filter_cons_True by done. cbn [fmap list_fmap app snd fst].
    f_equal. rewrite list_filter_filter. apply list_filter_iff.
    intros x. rewrite not_elem_of_app, list_elem_of_singleton. done.
Qed.

Lemma accumulate_first_occurrences seen :
  Dict.values (accumulate seen) = first_occurrences seen.
Proof.
  unfold accumulate. rewrite fold_add_unseen_first. cbn [app].
  apply filter_all. by intros it _ ?%elem_of_nil.
Qed.

Lemma accumulate_ids seen i :
  i ∈ item_id <$> Dict.values (accumulate seen) ↔ i ∈ item_id <$> seen.
Proof.
  pose proof (accumulate_first_seen seen i) as Hfirst.
  pose proof (first_with_id_None i (Dict.values (accumulate seen))) as Hres.
  pose proof (first_with_id_None i seen) as Hseen.
  rewrite Hfirst in Hres.
  destruct (decide (i ∈ item_id <$> Dict.values (accumulate seen)));
    destruct (decide (i ∈ item_id <$> seen)); tauto.
Qed.

(** C8. When the request for a page of a term fails after k full pages,
    [fetch_offers] issues no further request for that term and returns
    exactly the offers of those k pages, in the order received and each id
    with its first record only (none when k is 0).  The run goes on: the
    terms before and after it are requested as usual, and the merged offers
    have the ids of those k pages and the ids the other terms returned,
    and no other. *)
Theorem fetch_offers_page_failure (E : env) (query : string) (k : nat) :
  k ≤ 20 →
  (∀ j, j < k → full_page (http_get E query (50 * Z.of_nat j)%Z)) →
  http_get E query (50 * Z.of_nat k)%Z = PageError →
  (∀ w, fetch_offers E query w
        = (first_occurrences (pages_read E query k),
           add_requests (page_requests query (S k)) w))
  ∧ (∀ before after w,
       (collect_offers E (before ++ query :: after) Dict.empty w).1
       = fold_left merge_offers
           (fetched E <$> before ++ query :: after) Dict.empty
       ∧ requests (job E (before ++ query :: after) w).2
         = requests w ++ concat (fetch_log E <$> before)
           ++ page_requests query (S k) ++ concat (fetch_log E <$> after)
       ∧ (∀ q, q ∈ after → (q, 0%Z) ∈ fetch_log E q)
       ∧ (∀ i, i ∈ item_id <$> current_offers E (before ++ query :: after) w
               ↔ i ∈ item_id <$> pages_read E query k
                 ∨ ∃ q, q ∈ before ++ after ∧ i ∈ item_id <$> fetched E q)).
Proof.
  intros Hk Hfull Herr.
  assert (∀ w, fetch_offers E query w
    = (Dict.values (accumulate (pages_read E query k)),
       add_requests (page_requests query (S k)) w)) as Hrun.
  { intros w.
    destruct (fetch_offers_pages E query w) as (n & Hn & -> & Hfull' & Hlast).
    assert (n = S k) as ->.
    { destruct (decide (S k < n)) as [Hlt|Hge].
      - specialize (Hfull' k Hlt). by rewrite Herr in Hfull'.
      - destruct (decide (n = S k)) as [|Hne]; [done |].
        exfalso. apply Hlast; [lia |]. apply Hfull. lia. }
    by rewrite pages_read_S, Herr, app_nil_r. }
  split.
  { intros w. by rewrite Hrun, accumulate_first_occurrences. }
  intros before after w. split_and!.
  - by rewrite collect_offers_run.
  - rewrite job_requests, fmap_app, concat_app, fmap_cons. cbn [concat].
    unfold fetch_log at 2. by rewrite Hrun.
  - intros q _. destruct (fetched_pages E q) as (n & Hn & _ & ->).
    apply first_page_requested. lia.
  - intros i. rewrite merged_ids.
    assert (i ∈ item_id <$> fetched E query
            ↔ i ∈ item_id <$> pages_read E query k) as Hquery.
    { unfold fetched. rewrite Hrun. apply accumulate_ids. }
    split.
    + intros (q & [Hq|[->|Hq]%elem_of_cons]%elem_of_app & Hi).
      * right. exists q. split; [apply elem_of_app; by left | done].
      * left. by apply Hquery.
      * right. exists q. split; [apply elem_of_app; by right | done].
    + intros [Hi|(q & [Hq|Hq]%elem_of_app & Hi)].
      * exists query. split; [| by apply Hquery].
        apply elem_of_app. right. by left.
      * exists q. split; [apply elem_of_app; by left | done].
      * exists q. split; [| done]. apply elem_of_app. right. by right.
Qed.

(** The first page of a term holds 50 offers and its second page fails:
    [fetch_offers] returns those 50 offers, and the run still requests
    both configured terms. *)
Lemma fetch_offers_page_failure_witness :
  1 ≤ 20
  ∧ fetched Scenario.E_failing "RTX Usado"
    = (λ k : nat, Scenario.offer (pretty k) "page 0") <$> seq 0 50
  ∧ requests (job Scenario.E_failing lista_busquedas empty_world).2
    = [("RTX Usado", 0%Z); ("RTX Usado", 50%Z);
       ("GTX Usado", 0%Z); ("GTX Usado", 50%Z)].
Proof.
  assert (∀ j, j < 1 →
    full_page (http_get Scenario.E_failing "RTX Usado" (50 * Z.of_nat j)%Z))
    as Hfull.
  { intros [|j] Hj; [vm_compute; lia | lia]. }
  destruct (fetch_offers_page_failure Scenario.E_failing "RTX Usado" 1
              ltac:(lia) Hfull eq_refl) as [Hrun Hjob].
  split_and!; [lia | | ].
  - unfold fetched. rewrite Hrun. cbn [fst]. vm_compute. reflexivity.
  - destruct (Hjob [] ["GTX Usado"] empty_world) as (_ & Hreq & _).
    etrans; [exact Hreq | reflexivity].
Defined.
